(** * pyMOR: stationary linear discretizations and P1 diffusion assembly

  A shallow embedding of

  - [src/pymor/discretizations/linear.py]
    ([StationaryLinearDiscretization]: [__init__], [copy], [solve]), and
  - [src/pymor/discreteoperators/cg.py]
    ([DiffusionOperatorP1.assemble], boundary treatment and sparse assembly),

  together with the properties the specification states about them.

  Floating point numbers are kept abstract: the development is
  parametric in the carrier [F] of array entries, and the few arithmetic
  facts that are needed are explicit hypotheses (all of them hold for
  IEEE doubles as well as for exact rationals). *)

From Stdlib Require Import ZArith QArith.
From stdpp Require Import base decidable countable option list gmap strings.

Local Open Scope nat_scope.

(** ** numpy / scipy values *)

Module Numpy.
Section arrays.
Context {F : Type}.

(** A scipy sparse matrix: its shape and its stored entries
    [(row, column, value)]. *)
Record spmatrix := {
  sp_shape : nat * nat;
  sp_entries : list (nat * nat * F)
}.

(** What a numpy array holds: numbers, or (for [dtype=object]) references
    to other objects; the only objects that occur here are sparse matrices. *)
Inductive payload :=
| Floats (xs : list F)
| Objects (ms : list spmatrix).

(** A numpy [ndarray]: shape and row-major flat contents. *)
Record ndarray := {
  shape : list nat;
  data : payload
}.

(** What an operator's [matrix] method hands back ("matrix | vector" with
    its storage class). *)
Inductive Matrix :=
| Dense (a : ndarray)
| Sparse (m : spmatrix).

(** [scipy.sparse.issparse] *)
Definition issparse (A : Matrix) : bool :=
  match A with Sparse _ => true | Dense _ => false end.

(** [a.ndim] *)
Definition ndim (a : ndarray) : nat := length (shape a).

(** [a.size] of an [ndarray]: the product of the extents. *)
Definition array_size (a : ndarray) : nat := foldr Nat.mul 1 (shape a).

(** [A.size]: for an [ndarray] the number of elements, for a scipy sparse
    matrix the number of stored entries. *)
Definition size (A : Matrix) : nat :=
  match A with
  | Dense a => array_size a
  | Sparse m => length (sp_entries m)
  end.

(** [np.zeros(n)] *)
Definition np_zeros (zero : F) (n : nat) : ndarray :=
  {| shape := [n]; data := Floats (replicate n zero) |}.

(** [ndarray.squeeze()]: every axis of extent one is dropped. *)
Definition squeeze (a : ndarray) : ndarray :=
  {| shape := filter (λ n, n ≠ 1) (shape a); data := data a |}.

(** [np.squeeze(x)]: an [ndarray] is squeezed; anything else is first
    wrapped by [np.asarray], which for a sparse matrix gives a
    zero-dimensional object array. *)
Definition np_squeeze (x : Matrix) : ndarray :=
  match x with
  | Dense a => squeeze a
  | Sparse m => squeeze {| shape := []; data := Objects [m] |}
  end.

(** [a[np.newaxis]]: a new leading axis of extent one. *)
Definition newaxis (a : ndarray) : ndarray :=
  {| shape := 1 :: shape a; data := data a |}.

Context `{Countable F}.

#[export] Instance spmatrix_eq_dec : EqDecision spmatrix.
Proof. solve_decision. Defined.

#[export] Instance payload_eq_dec : EqDecision payload.
Proof. solve_decision. Defined.

#[export] Instance ndarray_eq_dec : EqDecision ndarray.
Proof. solve_decision. Defined.

#[export] Instance Matrix_eq_dec : EqDecision Matrix.
Proof. solve_decision. Defined.

#[export] Instance spmatrix_countable : Countable spmatrix :=
  inj_countable' (λ m, (sp_shape m, sp_entries m))
                 (λ p, {| sp_shape := p.1; sp_entries := p.2 |})
                 (λ m, match m with Build_spmatrix _ _ => eq_refl end).

#[export] Instance payload_countable : Countable payload :=
  inj_countable' (λ p, match p with Floats xs => inl xs | Objects ms => inr ms end)
                 (λ s, match s with inl xs => Floats xs | inr ms => Objects ms end)
                 (λ p, match p with Floats _ => eq_refl | Objects _ => eq_refl end).

#[export] Instance ndarray_countable : Countable ndarray :=
  inj_countable' (λ a, (shape a, data a))
                 (λ p, {| shape := p.1; data := p.2 |})
                 (λ a, match a with Build_ndarray _ _ => eq_refl end).
End arrays.

Arguments spmatrix : clear implicits.
Arguments payload : clear implicits.
Arguments ndarray : clear implicits.
Arguments Matrix : clear implicits.
End Numpy.


(** ** Python results *)

Module Py.

(** Exceptions that reach the caller. *)
Inductive Exception :=
| AssertionError
| KeyError (key : string)
| IndexError
| ValueError
| NotImplementedError
| ParameterValidationError
| SchemaConflict
| UnknownSubEntity (name : string)
| LinAlgError
| SolveNonConvergence
| ExternalError (code : nat).

Inductive Result (A : Type) :=
| Ok (a : A)
| Raise (e : Exception).
Arguments Ok {A} a.
Arguments Raise {A} e.

Definition of_option {A} (e : Exception) (o : option A) : Result A :=
  match o with Some a => Ok a | None => Raise e end.

Definition and_then {A B} (r : Result A) (k : A -> Result B) : Result B :=
  match r with Ok a => k a | Raise e => Raise e end.

End Py.

(** ** Discretizations of stationary linear problems (linear.py) *)

Module Linear.
Import Numpy Py.

Section discretization.
Context {F : Type} `{Countable F}.

Local Abbreviation ParameterType := (gmap string (list nat)).
Local Abbreviation ParameterValue := (gmap string (ndarray F)).

(** *** Calls out of [solve], as a trace *)

Inductive Event :=
| EvMatrix (which : string) (mu : ParameterValue)
    (* self.operators[which].matrix(mu) *)
| EvLog (sparse : bool) (mu : ParameterValue)
    (* self.logger.info('Solving ... (sparse|dense) for mu ...') *)
| EvSolver (A : Matrix F) (RHS : ndarray F)
    (* self.solver(A, RHS) *)
| EvBicg (A : Matrix F) (RHS : ndarray F) (tol : F) (maxiter : nat)
    (* scipy.sparse.linalg.bicg(A, RHS, tol=tol, maxiter=maxiter) *)
| EvLinalgSolve (A : Matrix F) (RHS : ndarray F)
    (* numpy.linalg.solve(A, RHS) *)
| EvCompute (namespace : nat) (call_key : ParameterValue).
    (* the cache missed and runs the wrapped function *)

(** A computation: the calls it made, and its value or the exception that
    ended it. *)
Definition M (A : Type) : Type := list Event * Result A.

Definition ret {A} (a : A) : M A := ([], Ok a).

Definition lift {A} (r : Result A) : M A := ([], r).

Definition emit (e : Event) : M unit := ([e], Ok tt).

Definition bind {A B} (m : M A) (k : A -> M B) : M B :=
  match m with
  | (tr, Ok a) => let '(tr', r) := k a in (tr ++ tr', r)
  | (tr, Raise e) => (tr, Raise e)
  end.

Local Notation "'let*' x := m 'in' k" := (bind m (λ x, k))
  (at level 10, x name, m at level 100, k at level 200).

(** *** Parameters: types, parsing, projection *)

(** numpy's broadcasting rule on reversed shapes: trailing axes are
    aligned, and an axis may be stretched only from extent one. *)
Fixpoint compatible_rev (s t : list nat) : bool :=
  match s, t with
  | [], _ => true
  | a :: s', b :: t' =>
      (bool_decide (a = b) || bool_decide (a = 1)) && compatible_rev s' t'
  | _ :: _, [] => false
  end.

Definition broadcastable (s t : list nat) : bool :=
  compatible_rev (reverse s) (reverse t).

(** Row-major contents of extents [s] stretched to extents [t]
    (same number of axes). *)
Fixpoint broadcast_data {X} (s t : list nat) (xs : list X) : list X :=
  match s, t with
  | a :: s', b :: t' =>
      let chunk := foldr Nat.mul 1 s' in
      if decide (a = b)
      then concat ((λ i, broadcast_data s' t' (take chunk (drop (i * chunk) xs)))
                     <$> seq 0 a)
      else concat (replicate b (broadcast_data s' t' xs))
  | _, _ => xs
  end.

Definition broadcast_to (a : ndarray F) (t : list nat) : ndarray F :=
  let s := replicate (length t - ndim a) 1 ++ shape a in
  {| shape := t;
     data := match data a with
             | Floats xs => Floats (broadcast_data s t xs)
             | Objects ms => Objects (broadcast_data s t ms)
             end |}.

(** The three ways a raw parameter can fail validation (spec, 4.2). *)
Definition unknown_name (schema : ParameterType) (raw : ParameterValue) : Prop :=
  ∃ name, is_Some (raw !! name) ∧ schema !! name = None.

Definition incompatible_shape (schema : ParameterType) (raw : ParameterValue) : Prop :=
  ∃ name a s, raw !! name = Some a ∧ schema !! name = Some s ∧
              broadcastable (shape a) s = false.

Definition missing_component (schema : ParameterType) (raw : ParameterValue) : Prop :=
  ∃ name, is_Some (schema !! name) ∧ raw !! name = None.

(** Modelled from the spec: [parse_parameter] of [pymor.parameters.Parametric]
    is not among the sources. Spec 4.2: parsing fails with
    [ParameterValidationError] when the raw mapping has a name that the
    schema lacks, when an array's shape is neither equal nor broadcastable
    to the declared one, or when a component of the schema is missing (no
    defaults are defined); otherwise every array is brought to its declared
    shape. An empty raw mapping against an empty schema parses to the empty
    value. *)
Definition parse_parameter (schema : ParameterType) (raw : ParameterValue)
  : Result ParameterValue :=
  if decide (map_Forall (λ name _, is_Some (schema !! name)) raw) then
    if decide (map_Forall
                 (λ name a, default true (broadcastable (shape a) <$> schema !! name)
                            = true) raw) then
      if decide (map_Forall (λ name _, is_Some (raw !! name)) schema) then
        Ok (map_imap (λ name a, broadcast_to a <$> schema !! name) raw)
      else Raise ParameterValidationError
    else Raise ParameterValidationError
  else Raise ParameterValidationError.

(** Modelled from the spec: the merge of [build_parameter_type] (spec 4.1):
    a new name is inserted, an equal shape is kept, a differing shape for
    the same name is a [SchemaConflict]. *)
Definition merge (existing additions : ParameterType) : Result ParameterType :=
  if decide (map_Forall
               (λ name s, existing !! name = None ∨ existing !! name = Some s)
               additions)
  then Ok (existing ∪ additions)
  else Raise SchemaConflict.

(** Modelled from the spec: [build_parameter_type(inherits=...)] merges the
    parameter types of the named sub-entities, in turn, into the local
    requirements. *)
Fixpoint build_parameter_type (local : ParameterType)
    (inherits : list (string * ParameterType)) : Result ParameterType :=
  match inherits with
  | [] => Ok local
  | (_, ty) :: rest =>
      match merge local ty with
      | Ok merged => build_parameter_type merged rest
      | Raise e => Raise e
      end
  end.

(** *** Operators and the cache *)

(** A [LinearDiscreteOperatorInterface] object as [__init__] and [solve]
    use it. [matrix] is what the operator's own (cached) [matrix] method
    returns, an external collaborator here; [op_namespace] is the cache
    namespace of the operator object (spec 3: every operator caches under
    its own identity), by which the object is told from others. *)
Record LinearDiscreteOperator := {
  op_namespace : nat;
  dim_source : nat;
  dim_range : nat;
  op_parameter_type : ParameterType;
  matrix : ParameterValue -> Result (Matrix F)
}.

(** A solver function [solver(A, RHS)]. *)
Definition Solver : Type := Matrix F -> ndarray F -> M (ndarray F).

Inductive CacheConfig := DEFAULT_DISK_CONFIG.

(** The store behind all [Cachable] objects: entries are keyed by the
    owner's namespace and the fingerprint of the call's argument (arrays
    are fingerprinted by content, so the parameter value is its own key). *)
Record CacheStore := {
  next_namespace : nat;
  entries : gmap (nat * ParameterValue) (ndarray F)
}.

(** Modelled from the spec: [Cachable.__init__] of [pymor.core.cache] is not
    among the sources. Spec 3: an object's identity is its cache
    namespace, and (re-)initialising a clone yields a fresh namespace for
    its own future entries. (Spec 4.4 also asks for equal identities of
    objects with equal attributes; for a clone the two sentences cannot
    both hold, and the one about clones is followed here.) *)
Definition Cachable_init (config : option CacheConfig) (st : CacheStore)
  : nat * CacheStore :=
  (next_namespace st,
   {| next_namespace := S (next_namespace st); entries := entries st |}).

(** Modelled from the spec: the cache contract of spec 4.5,
    [get_or_compute(identity, call_key, compute_fn)]. A hit returns the
    stored value and does not run [compute_fn]; a miss runs it once and
    stores its value. An exception of [compute_fn] reaches the caller and
    nothing is stored. *)
Definition get_or_compute (identity : nat) (call_key : ParameterValue)
    (compute_fn : M (ndarray F)) (st : CacheStore) : M (ndarray F) * CacheStore :=
  match entries st !! (identity, call_key) with
  | Some v => (ret v, st)
  | None =>
      match bind (emit (EvCompute identity call_key)) (λ _, compute_fn) with
      | (tr, Ok v) =>
          ((tr, Ok v),
           {| next_namespace := next_namespace st;
              entries := <[(identity, call_key) := v]> (entries st) |})
      | (tr, Raise e) => ((tr, Raise e), st)
      end
  end.

(** Two stores hold the same entries under one namespace. *)
Definition agree_on (ns : nat) (st st' : CacheStore) : Prop :=
  ∀ key, entries st !! (ns, key) = entries st' !! (ns, key).

(** *** StationaryLinearDiscretization *)

Record Defaults := {
  bicg_tol : F;
  bicg_maxiter : nat
}.

(** The numerical collaborators: [pymor.core.defaults], the number zero,
    [scipy.sparse.linalg.bicg] (which returns the iterate and an [info]
    flag: zero on convergence, positive when the iteration cap was hit)
    and [numpy.linalg.solve]. *)
Variable defaults : Defaults.
Variable zero : F.
Variable bicg : Matrix F -> ndarray F -> F -> nat -> Result (ndarray F * Z).
Variable linalg_solve : Matrix F -> ndarray F -> Result (ndarray F).

Record StationaryLinearDiscretization := {
  operators : gmap string LinearDiscreteOperator;
  parameter_type : ParameterType;
  parameter_maps : gmap string ParameterType;
  solver : Solver;
  visualize : option (ndarray F -> unit);
  solution_dim : nat;
  name : option string;
  disable_logging : bool;
  cache_config : option CacheConfig;
  namespace : nat
}.

(** linear.py, lines 84-89 *)
Definition default_solver : Solver := λ A RHS,
  if issparse A then
    let* _ := emit (EvBicg A RHS (bicg_tol defaults) (bicg_maxiter defaults)) in
    let* U_info := lift (bicg A RHS (bicg_tol defaults) (bicg_maxiter defaults)) in
    ret U_info.1
  else
    let* _ := emit (EvLinalgSolve A RHS) in
    lift (linalg_solve A RHS).

(** linear.py, lines 74-96. The two [isinstance] assertions hold by typing. *)
Definition __init__ (operator rhs : LinearDiscreteOperator)
    (solver : option Solver) (visualizer : option (ndarray F -> unit))
    (name : option string) (st : CacheStore)
  : Result StationaryLinearDiscretization * CacheStore :=
  if negb (bool_decide (dim_source operator = dim_range operator
                        ∧ dim_range operator = dim_source rhs))
  then (Raise AssertionError, st)
  else if negb (bool_decide (dim_range rhs = 1))
  then (Raise AssertionError, st)
  else
    let '(ns, st') := Cachable_init (Some DEFAULT_DISK_CONFIG) st in
    let inherits := [("operator", op_parameter_type operator);
                     ("rhs", op_parameter_type rhs)] in
    match build_parameter_type ∅ inherits with
    | Raise e => (Raise e, st')
    | Ok ty =>
        (Ok {| operators := {[ "operator" := operator; "rhs" := rhs ]};
               parameter_type := ty;
               parameter_maps := list_to_map inherits;
               solver := default default_solver solver;
               visualize := visualizer;
               solution_dim := dim_range operator;
               name := name;
               disable_logging := false;
               cache_config := Some DEFAULT_DISK_CONFIG;
               namespace := ns |}, st')
    end.

(** linear.py, lines 98-102: a shallow copy, a copy of the [operators]
    dictionary, and a re-initialised cache (no [config] argument). *)
Definition copy (self : StationaryLinearDiscretization) (st : CacheStore)
  : StationaryLinearDiscretization * CacheStore :=
  let '(ns, st') := Cachable_init None st in
  ({| operators := operators self;
      parameter_type := parameter_type self;
      parameter_maps := parameter_maps self;
      solver := solver self;
      visualize := visualize self;
      solution_dim := solution_dim self;
      name := name self;
      disable_logging := disable_logging self;
      cache_config := None;
      namespace := ns |}, st').

(** [dict_property('operators', key)]: the attribute reads
    [self.operators[key]]. *)
Definition dict_property (self : StationaryLinearDiscretization) (key : string)
  : Result LinearDiscreteOperator :=
  match operators self !! key with
  | Some op => Ok op
  | None => Raise (KeyError key)
  end.

(** Modelled from the spec: [map_parameter] of [Parametric] (spec 4.3): the
    value restricted to the components of the named sub-entity, which must
    have been registered through [inherits]. *)
Definition restrict (ty : ParameterType) (mu : ParameterValue) : ParameterValue :=
  filter (λ kv, is_Some (ty !! kv.1)) mu.

Definition map_parameter (self : StationaryLinearDiscretization)
    (mu : ParameterValue) (sub : string) : Result ParameterValue :=
  match parameter_maps self !! sub with
  | None => Raise (UnknownSubEntity sub)
  | Some ty => Ok (restrict ty mu)
  end.

(** [self.operators[which].matrix(self.map_parameter(mu, which))] *)
Definition call_matrix (self : StationaryLinearDiscretization)
    (mu : ParameterValue) (which : string) : M (Matrix F) :=
  let* op := lift (dict_property self which) in
  let* mu' := lift (map_parameter self mu which) in
  let* _ := emit (EvMatrix which mu') in
  lift (matrix op mu').

(** linear.py, lines 105-119: the function that [@cached] wraps. *)
Definition solve (self : StationaryLinearDiscretization) (mu : ParameterValue)
  : M (ndarray F) :=
  let* mu := lift (parse_parameter (parameter_type self) mu) in
  let* A := call_matrix self mu "operator" in
  let* _ := (if negb (disable_logging self)
             then emit (EvLog (issparse A) mu) else ret tt) in
  if bool_decide (size A = 0) then ret (np_zeros zero 0)
  else
    let* R := call_matrix self mu "rhs" in
    let RHS := np_squeeze R in
    let RHS := if bool_decide (ndim RHS = 0) then newaxis RHS else RHS in
    let* _ := emit (EvSolver A RHS) in
    solver self A RHS.

(** The right-hand side that line 119 passes on: lines 115-117 applied to
    the matrix of the [rhs] operator. *)
Definition rhs_vector (R : Matrix F) : ndarray F :=
  let RHS := np_squeeze R in
  if bool_decide (ndim RHS = 0) then newaxis RHS else RHS.

(** Modelled from the spec: the [@cached] decorator is not among the
    sources. Spec 4.7: the whole call is wrapped by the cache contract,
    keyed on the discretization's identity and the parsed parameter. *)
Definition cached_solve (self : StationaryLinearDiscretization)
    (mu : ParameterValue) (st : CacheStore) : M (ndarray F) * CacheStore :=
  match parse_parameter (parameter_type self) mu with
  | Raise e => (lift (Raise e), st)
  | Ok key => get_or_compute (namespace self) key (solve self mu) st
  end.

(** [self.disable_logging = flag] *)
Definition set_disable_logging (flag : bool) (self : StationaryLinearDiscretization)
  : StationaryLinearDiscretization :=
  {| operators := operators self;
     parameter_type := parameter_type self;
     parameter_maps := parameter_maps self;
     solver := solver self;
     visualize := visualize self;
     solution_dim := solution_dim self;
     name := name self;
     disable_logging := flag;
     cache_config := cache_config self;
     namespace := namespace self |}.

(** The event is a request for the matrix of the operator named [which]. *)
Definition requests (which : string) (e : Event) : Prop :=
  ∃ mu, e = EvMatrix which mu.

(** Several [solve] calls on one object, one after the other. *)
Fixpoint solve_all (self : StationaryLinearDiscretization)
    (mus : list ParameterValue) (st : CacheStore)
  : list (M (ndarray F)) * CacheStore :=
  match mus with
  | [] => ([], st)
  | mu :: mus' =>
      let '(r, st1) := cached_solve self mu st in
      let '(rs, st2) := solve_all self mus' st1 in
      (r :: rs, st2)
  end.

(** Modelled from the spec: the [matrix] method of
    [LinearDiscreteOperatorInterface] is not among the sources. Spec 4.6:
    the matrix is looked up under the operator's own identity and the
    parameter; a miss runs [assemble] and stores what it returns, a hit
    does not assemble. [assemblies] replays the requests for matrices that
    a trace of [self] holds, in their order, against the matrix caches of
    the operators, and gives the requests that ran [assemble] together
    with the caches afterwards. *)
Fixpoint assemblies (self : StationaryLinearDiscretization) (trace : list Event)
    (caches : gmap (nat * ParameterValue) (Matrix F))
  : list (string * ParameterValue) * gmap (nat * ParameterValue) (Matrix F) :=
  match trace with
  | [] => ([], caches)
  | EvMatrix which mu :: trace' =>
      match operators self !! which with
      | Some op =>
          match caches !! (op_namespace op, mu) with
          | Some _ => assemblies self trace' caches
          | None =>
              let caches' := match matrix op mu with
                             | Ok A => <[(op_namespace op, mu) := A]> caches
                             | Raise _ => caches
                             end in
              let '(runs, final) := assemblies self trace' caches' in
              ((which, mu) :: runs, final)
          end
      | None => assemblies self trace' caches
      end
  | _ :: trace' => assemblies self trace' caches
  end.

(** The events that are calls of a solver. *)
Definition is_solver_event (e : Event) : bool :=
  match e with
  | EvSolver _ _ | EvBicg _ _ _ _ | EvLinalgSolve _ _ => true
  | _ => false
  end.

(** The events that are calls of an operator's [matrix]. *)
Definition is_matrix_event (e : Event) : bool :=
  match e with
  | EvMatrix _ _ => true
  | _ => false
  end.

End discretization.
End Linear.


(** ** P1 diffusion operator (cg.py) *)

Module Cg.
Import Numpy Py.

Section assemble.
Context {F Mu : Type}.

(** Arithmetic of array entries. *)
Variables (zero one : F) (opp : F -> F) (add mul : F -> F -> F).

(** What [assemble] reads of a [BoundaryInfo]. *)
Record BoundaryInfo := {
  has_dirichlet : bool;
  dirichlet_mask : nat -> list bool;
  dirichlet_boundaries : nat -> list nat
}.

(** What [assemble] reads of a grid; arrays are nested lists. *)
Record Grid := {
  dim : nat;
  size : nat -> nat;
  subentities : nat -> nat -> list (list nat);
  jacobian_inverse_transposed : nat -> list (list (list F));
  volumes : nat -> list F;
  centers : nat -> list (list F)
}.

Record DiffusionOperatorP1 := {
  grid : Grid;
  boundary_info : BoundaryInfo;
  diffusion_function : option (list (list F) -> Mu -> Result (list F));
  diffusion_constant : option F;
  dirichlet_clear_columns : bool;
  dirichlet_clear_diag : bool;
  map_parameter : Mu -> option string -> Result Mu
}.

(** A [coo_matrix]: shape and the triplets in the order they were given. *)
Record coo := {
  coo_shape : nat * nat;
  coo_entries : list (nat * nat * F)
}.

Definition sum_list (xs : list F) : F := foldl add zero xs.

Definition dot (xs ys : list F) : F := sum_list (zip_with mul xs ys).

(** numpy's broadcasting along one axis: extents fit when they are equal
    or one of them is one, and an operand of extent one is repeated. *)
Definition broadcasts (m n : nat) : Prop := m = n ∨ m = 1 ∨ n = 1.

Definition stretch {X} (n : nat) (xs : list X) : list X :=
  match xs with
  | [x] => replicate n x
  | _ => xs
  end.

(** The entries of [np.einsum('eij,pj->epi', JIT, SF_GRAD)]. *)
Definition einsum_grads_values (JIT : list (list (list F)))
    (SF_GRAD : list (list F)) : list (list (list F)) :=
  (λ J : list (list F),
     (λ g, (λ Ji, dot (stretch (length g) Ji) (stretch (length Ji) g)) <$> J)
       <$> SF_GRAD) <$> JIT.

(** [np.einsum('eij,pj->epi', JIT, SF_GRAD)]. The nested lists stand for
    arrays of three and of two axes. numpy raises [ValueError] unless the
    extents of the axis [j] fit: the length of every row of every Jacobian
    and the length of a row of [SF_GRAD]. *)
Definition einsum_grads (JIT : list (list (list F))) (SF_GRAD : list (list F))
  : Result (list (list (list F))) :=
  if decide (Forall (λ J : list (list F),
                       Forall (λ Ji : list F,
                                 Forall (λ g : list F,
                                           broadcasts (length Ji) (length g))
                                        SF_GRAD) J) JIT)
  then Ok (einsum_grads_values JIT SF_GRAD)
  else Raise ValueError.

(** The entries of [np.einsum('epi,eqi,e->epq', G, G, w).ravel()] for [G]
    and [w] of one extent along [e]. *)
Definition einsum_ints_values (G : list (list (list F))) (w : list F) : list F :=
  concat (zip_with
            (λ (Ge : list (list F)) we,
               concat ((λ gp, (λ gq, mul (dot gp gq) we) <$> Ge) <$> Ge))
            G w).

(** [np.einsum('epi,eqi,e->epq', G, G, w).ravel()]: [ValueError] unless
    the extents of [G] and [w] along [e] fit. *)
Definition einsum_ints (G : list (list (list F))) (w : list F)
  : Result (list F) :=
  if decide (broadcasts (length G) (length w))
  then Ok (einsum_ints_values (stretch (length w) G) (stretch (length G) w))
  else Raise ValueError.

(** [np.einsum('epi,eqi,e,e->epq', G, G, w, D).ravel()]: [ValueError]
    unless the extents of [G], [w] and [D] along [e] fit. *)
Definition einsum_ints_weighted (G : list (list (list F))) (w D : list F)
  : Result (list F) :=
  let n := if decide (length G = 1)
           then if decide (length w = 1) then length D else length w
           else length G in
  if decide ((length G = n ∨ length G = 1) ∧ (length w = n ∨ length w = 1)
             ∧ (length D = n ∨ length D = 1))
  then Ok (einsum_ints_values (stretch n G)
             (zip_with mul (stretch n w) (stretch n D)))
  else Raise ValueError.

(** [np.repeat(a, k, axis=1).ravel()] *)
Definition repeat_ravel (a : list (list nat)) (k : nat) : list nat :=
  concat ((λ row : list nat, concat (replicate k <$> row)) <$> a).

(** [np.tile(a, [1, k]).ravel()] *)
Definition tile_ravel (a : list (list nat)) (k : nat) : list nat :=
  concat ((λ row : list nat, concat (replicate k row)) <$> a).

(** [mask[I]] for an integer index array [I]. *)
Definition take_mask (mask : list bool) (I : list nat) : Result (list bool) :=
  of_option IndexError (mapM (λ i, mask !! i) I).

(** [np.where(cond, 0, xs)] for arrays of one length. *)
Definition np_where_zero (cond : list bool) (xs : list F) : Result (list F) :=
  if decide (length cond = length xs)
  then Ok (zip_with (λ (c : bool) x, if c then zero else x) cond xs)
  else Raise ValueError.

(** The values at the places whose index in [I] is a masked DOF are zero. *)
Definition zero_where (mask : list bool) (I : list nat) (V : list F) : Prop :=
  ∀ k i, I !! k = Some i -> mask !! i = Some true -> V !! k = Some zero.

(** cg.py, lines 238-247. *)
Definition boundary_treatment (self : DiffusionOperatorP1)
    (SF_INTS : list F) (SF_I0 SF_I1 : list nat)
  : Result (list F * list nat * list nat) :=
  let g := grid self in
  let bi := boundary_info self in
  if has_dirichlet bi then
    and_then (take_mask (dirichlet_mask bi (dim g)) SF_I0) (λ M0,
    and_then (np_where_zero M0 SF_INTS) (λ SF_INTS,
    and_then
      (if dirichlet_clear_columns self then
         and_then (take_mask (dirichlet_mask bi (dim g)) SF_I1) (λ M1,
         np_where_zero M1 SF_INTS)
       else Ok SF_INTS) (λ SF_INTS,
    if negb (dirichlet_clear_diag self) then
      let DB := dirichlet_boundaries bi (dim g) in
      Ok (SF_INTS ++ replicate (length DB) one, SF_I0 ++ DB, SF_I1 ++ DB)
    else Ok (SF_INTS, SF_I0, SF_I1))))
  else Ok (SF_INTS, SF_I0, SF_I1).

(** [coo_matrix((data, (I, J)), shape=shape)] *)
Definition coo_matrix (data : list F) (I J : list nat) (shape : nat * nat)
  : Result coo :=
  if decide (length I = length data ∧ length J = length data) then
    if decide (Forall (λ i, i < shape.1) I ∧ Forall (λ j, j < shape.2) J) then
      Ok {| coo_shape := shape; coo_entries := zip (zip I J) data |}
    else Raise ValueError
  else Raise ValueError.

(** One triplet added to the entries collected so far: a value for a
    position that is already stored is added to the stored value. *)
Fixpoint add_entry (acc : list (nat * nat * F)) (e : nat * nat * F)
  : list (nat * nat * F) :=
  match acc with
  | [] => [e]
  | e' :: acc' =>
      if decide (e'.1 = e.1) then (e'.1, add e'.2 e.2) :: acc'
      else e' :: add_entry acc' e
  end.

Definition sum_duplicates (es : list (nat * nat * F)) : list (nat * nat * F) :=
  foldl add_entry [] es.

(** The order in which scipy visits the triplets when it converts to CSR
    (it sorts them by row and column; the order of duplicates among
    themselves is not fixed). *)
Variable sort_indices : list (nat * nat * F) -> list (nat * nat * F).

(** [csr_matrix(A)] for a [coo_matrix]: duplicates are summed. *)
Definition csr_matrix (A : coo) : spmatrix F :=
  {| sp_shape := coo_shape A;
     sp_entries := sum_duplicates (sort_indices (coo_entries A)) |}.

(** The value stored at a position, if one is. *)
Fixpoint stored (pos : nat * nat) (es : list (nat * nat * F)) : option F :=
  match es with
  | [] => None
  | e :: es' => if decide (e.1 = pos) then Some e.2 else stored pos es'
  end.

(** [A[i, j]]: the stored value, and zero where nothing is stored. *)
Definition get (A : spmatrix F) (i j : nat) : F :=
  default zero (stored (i, j) (sp_entries A)).

(** The values of all triplets for one position, in order. *)
Definition values_at (pos : nat * nat) (es : list (nat * nat * F)) : list F :=
  snd <$> filter (λ e, e.1 = pos) es.

(** The sum that an accumulation of [vs] leaves behind, started from the
    stored value [o] if there is one, from the first summand otherwise. *)
Definition accumulate (o : option F) (vs : list F) : option F :=
  match o with
  | Some x => Some (foldl add x vs)
  | None => match vs with
            | [] => None
            | v :: vs' => Some (foldl add v vs')
            end
  end.

(** cg.py, lines 205-254. *)
Definition assemble (self : DiffusionOperatorP1) (mu : Mu) : Result (spmatrix F) :=
  and_then (map_parameter self mu None) (λ _,
  let g := grid self in
  and_then
    (if decide (dim g = 2) then
       Ok [[opp one; opp one]; [one; zero]; [zero; one]]
     else if decide (dim g = 1) then Ok [[opp one]; [one]]
     else Raise NotImplementedError) (λ SF_GRAD,
  and_then (einsum_grads (jacobian_inverse_transposed g 0) SF_GRAD)
    (λ SF_GRADS,
  and_then
    (match diffusion_function self with
     | Some f =>
         and_then (map_parameter self mu (Some "diffusion")) (λ mu_d,
         and_then (f (centers g 0) mu_d) (λ D,
         einsum_ints_weighted SF_GRADS (volumes g 0) D))
     | None => einsum_ints SF_GRADS (volumes g 0)
     end) (λ SF_INTS,
  let SF_INTS := match diffusion_constant self with
                 | Some c => (λ x, mul x c) <$> SF_INTS
                 | None => SF_INTS
                 end in
  let SF_I0 := repeat_ravel (subentities g 0 (dim g)) (dim g + 1) in
  let SF_I1 := tile_ravel (subentities g 0 (dim g)) (dim g + 1) in
  and_then (boundary_treatment self SF_INTS SF_I0 SF_I1) (λ '(SF_INTS, SF_I0, SF_I1),
  and_then (coo_matrix SF_INTS SF_I0 SF_I1 (size g (dim g), size g (dim g))) (λ A,
  Ok (csr_matrix A))))))).

(** The arrays that [assemble] reads fit together: the grid is a line or
    triangle grid, every element has [dim + 1] vertices, all of them
    vertices of the grid, there is one Jacobian of [dim] rows and [dim]
    columns and one volume per element, and a Dirichlet mask covers every
    vertex. *)
Definition well_formed (self : DiffusionOperatorP1) : Prop :=
  let g := grid self in
  let bi := boundary_info self in
  let n := size g (dim g) in
  let sub := subentities g 0 (dim g) in
  (dim g = 1 ∨ dim g = 2)
  ∧ Forall (λ row, length row = dim g + 1 ∧ Forall (λ i, i < n) row) sub
  ∧ length (jacobian_inverse_transposed g 0) = length sub
  ∧ Forall (λ J, length J = dim g ∧ Forall (λ Ji, length Ji = dim g) J)
           (jacobian_inverse_transposed g 0)
  ∧ length (volumes g 0) = length sub
  ∧ (has_dirichlet bi = true ->
     n ≤ length (dirichlet_mask bi (dim g))
     ∧ Forall (λ i, i < n) (dirichlet_boundaries bi (dim g))).

(** The diffusion function, if there is one, can be evaluated for [mu] and
    gives one value per element. *)
Definition diffusion_evaluates (self : DiffusionOperatorP1) (mu : Mu) : Prop :=
  match diffusion_function self with
  | None => True
  | Some f =>
      ∃ mu_d D, map_parameter self mu (Some "diffusion") = Ok mu_d
                ∧ f (centers (grid self) 0) mu_d = Ok D
                ∧ length D = length (subentities (grid self) 0 (dim (grid self)))
  end.

(** *** [L2ProductFunctionalP1] and [L2ProductP1] (cg.py, lines 13-153) *)

(** A numeric numpy array: shape and row-major contents. *)
Record array := {
  a_shape : list nat;
  a_data : list F
}.

(** Reference elements; [line] and [triangle] are the two that cg.py names. *)
Inductive ReferenceElement :=
| line
| triangle
| OtherElement (name : string).

(** What the two L2 classes read of a grid beyond [Grid].
    [reference_element] is the reference element of codimension zero (the
    object [grid.reference_element], which [grid.reference_element(0)]
    returns as well). *)
Record QuadratureGrid := {
  base : Grid;
  reference_element : ReferenceElement;
  quadrature_points : nat -> nat -> array;
  integration_elements : nat -> array
}.

(** numpy and the reference elements, as far as they are left open:
    [element.quadrature(order=k)] gives points and weights; [np.einsum];
    and the values that numpy stores, in index order, when an array is
    assigned to [k] indexed places ([ValueError] when the shapes do not
    fit). *)
Variable quadrature : ReferenceElement -> nat -> array * array.
Variable einsum : string -> list array -> Result array.
Variable values_for : array -> nat -> Result (list F).

(** [1 - a] *)
Definition one_minus (a : array) : array :=
  {| a_shape := a_shape a; a_data := (λ x, add one (opp x)) <$> a_data a |}.

(** [a - b] for two arrays of one shape. *)
Definition array_sub (a b : array) : array :=
  {| a_shape := a_shape a;
     a_data := zip_with (λ x y, add x (opp y)) (a_data a) (a_data b) |}.

(** [np.array((a_1, ..., a_k))] for arrays of one shape [s]. *)
Definition stack (s : list nat) (items : list array) : array :=
  {| a_shape := length items :: s; a_data := concat (a_data <$> items) |}.

(** [np.squeeze(a)] *)
Definition array_squeeze (a : array) : array :=
  {| a_shape := filter (λ n, n ≠ 1) (a_shape a); a_data := a_data a |}.

(** The rows of the last axis: consecutive blocks of [d] entries. *)
Fixpoint chunks (count d : nat) (xs : list F) : list (list F) :=
  match count with
  | 0 => []
  | S count' => take d xs :: chunks count' d (drop d xs)
  end.

(** [a[..., i]] *)
Definition index_last (a : array) (i : nat) : Result array :=
  match reverse (a_shape a) with
  | [] => Raise IndexError
  | d :: rest =>
      if decide (i < d) then
        Ok {| a_shape := reverse rest;
              a_data := (λ row, default zero (row !! i))
                          <$> chunks (foldr Nat.mul 1 rest) d (a_data a) |}
      else Raise IndexError
  end.

(** [np.sum(a, axis=-1)]: every row of the last axis is added up, from its
    first entry on. *)
Definition sum_last (a : array) : Result array :=
  match reverse (a_shape a) with
  | [] => Raise ValueError
  | d :: rest =>
      Ok {| a_shape := reverse rest;
            a_data := (λ row, match row with
                              | [] => zero
                              | x :: row' => foldl add x row'
                              end)
                        <$> chunks (foldr Nat.mul 1 rest) d (a_data a) |}
  end.

(** [coo_matrix((data, (zeros, J)), shape=(1, n)).todense()], raveled: the
    triplets are added, in their order, onto an array of zeros. *)
Definition todense_row (n : nat) (A : coo) : list F :=
  foldl (λ acc e, alter (λ x, add x e.2) e.1.2 acc)
        (replicate n zero) (coo_entries A).

(** [I[DI] = value] for the values [vs], one per index, stored in order. *)
Definition setitem (I : list F) (DI : list nat) (vs : list F) : Result (list F) :=
  if decide (Forall (λ d, d < length I) DI)
  then Ok (foldl (λ acc dv, <[dv.1 := dv.2]> acc) I (zip DI vs))
  else Raise IndexError.

Record L2ProductFunctionalP1 := {
  f_grid : QuadratureGrid;
  f_boundary_info : option BoundaryInfo;
  function : array -> Mu -> Result array;
  dirichlet_data : option (list (list F) -> Mu -> Result array);
  f_map_parameter : Mu -> option string -> Result Mu
}.

(** cg.py, lines 46-47: the dimensions that [__init__] declares. *)
Definition functional_dim_source (self : L2ProductFunctionalP1) : nat :=
  size (base (f_grid self)) (dim (base (f_grid self))).

Definition functional_dim_range (self : L2ProductFunctionalP1) : nat := 1.

(** cg.py, lines 63-73: the shape functions at the quadrature points. *)
Definition functional_shape_functions (d : nat) (q : array) : Result array :=
  if decide (d = 1) then
    Ok (array_squeeze (stack (a_shape q) [one_minus q; q]))
  else if decide (d = 2) then
    and_then (sum_last q) (λ s,
    and_then (index_last q 0) (λ q0,
    and_then (index_last q 1) (λ q1,
    Ok (stack (a_shape q0) [one_minus s; q0; q1]))))
  else Raise NotImplementedError.

(** cg.py, lines 84-90. *)
Definition functional_boundary (self : L2ProductFunctionalP1) (mu : Mu)
    (I : list F) : Result (list F) :=
  let g := base (f_grid self) in
  match f_boundary_info self with
  | Some bi =>
      if has_dirichlet bi then
        let DI := dirichlet_boundaries bi (dim g) in
        match dirichlet_data self with
        | Some data =>
            and_then (of_option IndexError
                        (mapM (λ d, centers g (dim g) !! d) DI)) (λ points,
            and_then (f_map_parameter self mu (Some "dirichlet_data")) (λ mu_d,
            and_then (data points mu_d) (λ values,
            and_then (values_for values (length DI)) (λ vs,
            if decide (length vs = length DI)
            then setitem I DI vs else Raise ValueError))))
        | None => setitem I DI (replicate (length DI) zero)
        end
      else Ok I
  | None => Ok I
  end.

(** cg.py, lines 55-92. *)
Definition functional_assemble (self : L2ProductFunctionalP1) (mu : Mu)
  : Result (Matrix F) :=
  let g := base (f_grid self) in
  and_then (f_map_parameter self mu (Some "function")) (λ mu_f,
  and_then (function self (quadrature_points (f_grid self) 0 2) mu_f) (λ Fv,
  let '(q, w) := quadrature (reference_element (f_grid self)) 2 in
  and_then (functional_shape_functions (dim g) q) (λ SF,
  and_then (einsum "eix,pi,e,i->ep"
              [Fv; SF; integration_elements (f_grid self) 0; w]) (λ ints,
  let SF_INTS := a_data ints in
  let SF_I := concat (subentities g 0 (dim g)) in
  and_then (coo_matrix SF_INTS (replicate (length SF_I) 0) SF_I
              (1, size g (dim g))) (λ A,
  let I := todense_row (size g (dim g)) A in
  and_then (functional_boundary self mu I) (λ I,
  Ok (Dense {| shape := [1; length I]; data := Floats I |}))))))).

Record L2ProductP1 := {
  p_grid : QuadratureGrid
}.

(** cg.py, lines 117-118. *)
Definition product_dim_source (self : L2ProductP1) : nat :=
  size (base (p_grid self)) (dim (base (p_grid self))).

(** cg.py, lines 125-139: the shape functions at the quadrature points of
    the triangle. *)
Definition product_shape_functions (d : nat) (q : array) : Result array :=
  if decide (d = 2) then
    and_then (index_last q 0) (λ q0,
    and_then (index_last q 1) (λ q1,
    Ok (stack (a_shape q0) [array_sub (one_minus q0) q1; q0; q1])))
  else if decide (d = 1) then
    and_then (index_last q 0) (λ q0,
    Ok (stack (a_shape q0) [one_minus q0; q0]))
  else Raise NotImplementedError.

(** cg.py, lines 122-153. *)
Definition product_assemble (self : L2ProductP1) : Result (spmatrix F) :=
  let g := base (p_grid self) in
  if decide (dim g = 2 ∨ dim g = 1) then
    let '(q, w) := quadrature triangle 2 in
    and_then (product_shape_functions (dim g) q) (λ SFQ,
    and_then (einsum "iq,jq,q,e->eij"
                [SFQ; SFQ; w; integration_elements (p_grid self) 0]) (λ ints,
    let SF_INTS := a_data ints in
    let SF_I0 := repeat_ravel (subentities g 0 (dim g)) (dim g + 1) in
    let SF_I1 := tile_ravel (subentities g 0 (dim g)) (dim g + 1) in
    and_then (coo_matrix SF_INTS SF_I0 SF_I1 (size g (dim g), size g (dim g)))
      (λ A, Ok (csr_matrix A))))
  else Raise NotImplementedError.

End assemble.
End Cg.

(** ** Concrete systems over the rationals *)

Module Scenario.
Import Numpy Py Linear.

#[export] Instance Q_eq_dec : EqDecision Q.
Proof. solve_decision. Defined.

#[export] Instance Q_countable : Countable Q :=
  inj_countable' (λ q, (Qnum q, Qden q)) (λ p, Qmake p.1 p.2)
                 (λ q, match q with Qmake _ _ => eq_refl end).

(** A one-dimensional array. *)
Definition vector (xs : list Q) : ndarray Q :=
  {| shape := [length xs]; data := Floats xs |}.

(** A dense [(n, m)] array given by its rows. *)
Definition dense (n m : nat) (rows : list (list Q)) : Matrix Q :=
  Dense {| shape := [n; m]; data := Floats (concat rows) |}.

(** An operator without parameters that always assembles [A]. *)
Definition constant_operator (ns source range : nat) (A : Matrix Q)
  : @LinearDiscreteOperator Q :=
  {| op_namespace := ns; dim_source := source; dim_range := range;
     op_parameter_type := ∅; matrix := λ _, Ok A |}.

(** An exact direct solver, standing for [numpy.linalg.solve]: Gauss-Jordan
    elimination on the augmented rows, with reduced fractions. *)
Definition pivot_row (col : nat) (rows : list (list Q)) : option (nat * list Q) :=
  list_find (λ r, Qnum (nth col r 0%Q) ≠ 0%Z) rows.

Definition normalise (col : nat) (r : list Q) : list Q :=
  (λ x, Qred (x / nth col r 0%Q)) <$> r.

Definition eliminate (col : nat) (p r : list Q) : list Q :=
  zip_with (λ x y, Qred (x - nth col r 0%Q * y)) r p.

Fixpoint gauss_jordan (steps col : nat) (solved pending : list (list Q))
  : option (list (list Q)) :=
  match steps with
  | 0 => Some solved
  | S steps' =>
      match pivot_row col pending with
      | None => None
      | Some (i, r) =>
          let p := normalise col r in
          gauss_jordan steps' (S col)
            ((eliminate col p <$> solved) ++ [p])
            (eliminate col p <$> delete i pending)
      end
  end.

Definition rows_of (n : nat) (xs : list Q) : list (list Q) :=
  (λ i, take n (drop (i * n) xs)) <$> seq 0 n.

Definition linalg_solve_exact (A : Matrix Q) (b : ndarray Q) : Result (ndarray Q) :=
  match A with
  | Dense {| shape := [n; m]; data := Floats xs |} =>
      match b with
      | {| shape := [k]; data := Floats ys |} =>
          if decide (n = m ∧ m = k ∧ length xs = n * n ∧ length ys = n) then
            match gauss_jordan n 0 []
                    (zip_with (λ r y, r ++ [y]) (rows_of n xs) ys) with
            | Some rows => Ok (vector ((λ r, nth n r 0%Q) <$> rows))
            | None => Raise LinAlgError
            end
          else Raise LinAlgError
      | _ => Raise LinAlgError
      end
  | _ => Raise LinAlgError
  end.

(** The biconjugate gradient iteration of [scipy.sparse.linalg.bicg] in
    exact arithmetic, started from zero and without preconditioner. The
    iteration stops with [info = 0] as soon as the residual satisfies
    [|r| <= tol * |b|] (compared through the squares), with a negative
    [info] when one of its two divisors vanishes, and with
    [info = maxiter] when [maxiter] steps did not reach the tolerance;
    in each case the current iterate is handed back. *)
Definition Qdot (xs ys : list Q) : Q :=
  Qred (foldl Qplus 0%Q (zip_with Qmult xs ys)).

(** [ys + a * xs] *)
Definition Qaxpy (a : Q) (xs ys : list Q) : list Q :=
  zip_with (λ x y, Qred (y + a * x)) xs ys.

(** The stored entries of a matrix of either storage class. *)
Definition triplets (A : Matrix Q) : option (nat * nat * list (nat * nat * Q)) :=
  match A with
  | Sparse m => Some (sp_shape m, sp_entries m)
  | Dense {| shape := [n; m]; data := Floats xs |} =>
      Some (n, m, imap (λ k x, (k / m, k mod m, x)) xs)
  | Dense _ => None
  end.

(** [A.matvec(x)], and [A.rmatvec(x)] through the transposed entries. *)
Definition matvec (es : list (nat * nat * Q)) (n : nat) (x : list Q) : list Q :=
  (λ i, Qred (foldl Qplus 0%Q
                ((λ e : nat * nat * Q, e.2 * nth e.1.2 x 0)%Q
                   <$> filter (λ e, e.1.1 = i) es))) <$> seq 0 n.

Definition rmatvec (es : list (nat * nat * Q)) (n : nat) (x : list Q) : list Q :=
  matvec (prod_map prod_swap id <$> es) n x.

Fixpoint bicg_steps (es : list (nat * nat * Q)) (n : nat) (bound : Q)
    (maxiter remaining : nat) (x r rt p pt : list Q) (rho_prev : option Q)
  : list Q * Z :=
  match remaining with
  | 0 => (x, Z.of_nat maxiter)
  | S remaining' =>
      let rho := Qdot rt r in
      if Qeq_bool rho 0 then (x, (-10)%Z)
      else
        let beta := match rho_prev with
                    | Some previous => Qred (rho / previous)
                    | None => 0%Q
                    end in
        let p := match rho_prev with Some _ => Qaxpy beta p r | None => r end in
        let pt := match rho_prev with Some _ => Qaxpy beta pt rt | None => rt end in
        let q := matvec es n p in
        let qt := rmatvec es n pt in
        let rv := Qdot pt q in
        if Qeq_bool rv 0 then (x, (-11)%Z)
        else
          let alpha := Qred (rho / rv) in
          let x := Qaxpy alpha p x in
          let r := Qaxpy (- alpha) q r in
          let rt := Qaxpy (- alpha) qt rt in
          if Qle_bool (Qdot r r) bound then (x, 0%Z)
          else bicg_steps es n bound maxiter remaining' x r rt p pt (Some rho)
  end.

Definition bicg_exact (A : Matrix Q) (b : ndarray Q) (tol : Q) (maxiter : nat)
  : Result (ndarray Q * Z) :=
  match triplets A, b with
  | Some (n, m, es), {| shape := [k]; data := Floats ys |} =>
      if decide (n = m ∧ m = k ∧ length ys = k) then
        let bound := Qred (tol * tol * Qdot ys ys) in
        if Qle_bool (Qdot ys ys) bound then (* |b| = 0, or tol >= 1 *)
          Ok (vector (replicate k 0%Q), 0%Z)
        else
          let '(x, info) := bicg_steps es k bound maxiter maxiter
                              (replicate k 0%Q) ys ys [] [] None in
          Ok (vector x, info)
      else Raise ValueError
  | _, _ => Raise ValueError
  end.

Definition defaults : @Defaults Q :=
  {| bicg_tol := 1 # 100000000; bicg_maxiter := 10 |}.

Definition empty_store : @CacheStore Q _ _ :=
  {| next_namespace := 0; entries := ∅ |}.

(** What [__init__] builds, in the empty store, from two operators without
    parameters. *)
Definition system (operator rhs : @LinearDiscreteOperator Q)
    (solver_arg : option (@Solver Q)) : @StationaryLinearDiscretization Q :=
  {| operators := {[ "operator" := operator; "rhs" := rhs ]};
     parameter_type := ∅;
     parameter_maps := list_to_map [("operator", ∅); ("rhs", ∅)];
     solver := default (default_solver defaults bicg_exact linalg_solve_exact)
                       solver_arg;
     visualize := None;
     solution_dim := dim_range operator;
     name := None;
     disable_logging := false;
     cache_config := Some DEFAULT_DISK_CONFIG;
     namespace := 0 |}.

(** [diag(1, 2, 3)] and the functional [[1, 1, 1]]. *)
Definition diag123 : @LinearDiscreteOperator Q :=
  constant_operator 1 3 3 (dense 3 3 [[1; 0; 0]; [0; 2; 0]; [0; 0; 3]]%Q).

Definition ones3 : @LinearDiscreteOperator Q :=
  constant_operator 2 3 1 (dense 1 3 [[1; 1; 1]]%Q).

(** A sparse [1 x 1] system, [2 x = 1]. *)
Definition sparse_two : @LinearDiscreteOperator Q :=
  constant_operator 3 1 1
    (Sparse {| sp_shape := (1, 1); sp_entries := [(0, 0, 2%Q)] |}).

Definition one1 : @LinearDiscreteOperator Q :=
  constant_operator 4 1 1 (dense 1 1 [[1%Q]]).

(** The sparse system [diag(1, 2) x = [1, 1]], solved with the iteration
    cap of [bicg] set to one step: the discretization that [__init__]
    builds from the two operators under these defaults. *)
Definition sparse_diag12 : @LinearDiscreteOperator Q :=
  constant_operator 7 2 2
    (Sparse {| sp_shape := (2, 2); sp_entries := [(0, 0, 1%Q); (1, 1, 2%Q)] |}).

Definition ones2 : @LinearDiscreteOperator Q :=
  constant_operator 8 2 1 (dense 1 2 [[1; 1]]%Q).

Definition one_step : @Defaults Q :=
  {| bicg_tol := 1 # 100000000; bicg_maxiter := 1 |}.

Definition capped_system : @StationaryLinearDiscretization Q :=
  {| operators := {[ "operator" := sparse_diag12; "rhs" := ones2 ]};
     parameter_type := ∅;
     parameter_maps := list_to_map [("operator", ∅); ("rhs", ∅)];
     solver := default_solver one_step bicg_exact linalg_solve_exact;
     visualize := None;
     solution_dim := 2;
     name := None;
     disable_logging := false;
     cache_config := Some DEFAULT_DISK_CONFIG;
     namespace := 0 |}.

(** The singular dense system [0 x = 1]. *)
Definition singular1 : @LinearDiscreteOperator Q :=
  constant_operator 9 1 1 (dense 1 1 [[0%Q]]).

(** A sparse system of dimension zero, and its right-hand side. *)
Definition sparse_empty : @LinearDiscreteOperator Q :=
  constant_operator 5 0 0 (Sparse {| sp_shape := (0, 0); sp_entries := [] |}).

Definition rhs_empty : @LinearDiscreteOperator Q :=
  constant_operator 6 0 1 (dense 1 0 [[]]).

(** A discretization whose parameter type asks for one scalar. *)
Definition with_diffusion : @StationaryLinearDiscretization Q :=
  {| operators := {[ "operator" := diag123; "rhs" := ones3 ]};
     parameter_type := {[ "diffusion" := [] ]};
     parameter_maps := list_to_map [("operator", {[ "diffusion" := [] ]});
                                    ("rhs", ∅)];
     solver := default_solver defaults bicg_exact linalg_solve_exact;
     visualize := None;
     solution_dim := 3;
     name := None;
     disable_logging := false;
     cache_config := Some DEFAULT_DISK_CONFIG;
     namespace := 0 |}.

(** An operator whose assembly fails. *)
Definition failing_operator (source range : nat) : @LinearDiscreteOperator Q :=
  {| op_namespace := 10; dim_source := source; dim_range := range;
     op_parameter_type := ∅; matrix := λ _, Raise (ExternalError 1) |}.

(** A grid of two intervals of length 1/2 on the unit interval, with
    Dirichlet values at both end points, and the Laplace operator on it. *)
Definition interval_grid : @Cg.Grid Q :=
  {| Cg.dim := 1;
     Cg.size := λ codim, if decide (codim = 0) then 2 else 3;
     Cg.subentities := λ _ _, [[0; 1]; [1; 2]];
     Cg.jacobian_inverse_transposed := λ _, [[[2%Q]]; [[2%Q]]];
     Cg.volumes := λ _, [1 # 2; 1 # 2];
     Cg.centers := λ _, [[1 # 4]; [3 # 4]] |}.

Definition end_points : Cg.BoundaryInfo :=
  {| Cg.has_dirichlet := true;
     Cg.dirichlet_mask := λ _, [true; false; true];
     Cg.dirichlet_boundaries := λ _, [0; 2] |}.

Definition laplace : @Cg.DiffusionOperatorP1 Q unit :=
  {| Cg.grid := interval_grid;
     Cg.boundary_info := end_points;
     Cg.diffusion_function := None;
     Cg.diffusion_constant := None;
     Cg.dirichlet_clear_columns := true;
     Cg.dirichlet_clear_diag := false;
     Cg.map_parameter := λ mu _, Ok mu |}.

(** The same operator with the diagonal of the Dirichlet rows cleared. *)
Definition laplace_cleared : @Cg.DiffusionOperatorP1 Q unit :=
  {| Cg.grid := interval_grid;
     Cg.boundary_info := end_points;
     Cg.diffusion_function := None;
     Cg.diffusion_constant := None;
     Cg.dirichlet_clear_columns := true;
     Cg.dirichlet_clear_diag := true;
     Cg.map_parameter := λ mu _, Ok mu |}.

(** Two triangles with the vertices [(0,0), (2,0), (1,1)] and
    [(0,0), (1,1), (0,2)], which share the edge between the vertices 0 and
    2, and the Laplace operator on them without Dirichlet boundaries. *)
Definition two_triangles : @Cg.Grid Q :=
  {| Cg.dim := 2;
     Cg.size := λ codim, if decide (codim = 0) then 2 else 4;
     Cg.subentities := λ _ _, [[0; 1; 2]; [0; 2; 3]];
     Cg.jacobian_inverse_transposed :=
       λ _, [[[1 # 2; 0]; [-1 # 2; 1]]; [[1; -1 # 2]; [0; 1 # 2]]]%Q;
     Cg.volumes := λ _, [1; 1]%Q;
     Cg.centers := λ _, [[1; 1 # 3]; [1 # 3; 1]]%Q |}.

Definition laplace_triangles : @Cg.DiffusionOperatorP1 Q unit :=
  {| Cg.grid := two_triangles;
     Cg.boundary_info :=
       {| Cg.has_dirichlet := false;
          Cg.dirichlet_mask := λ _, [false; false; false; false];
          Cg.dirichlet_boundaries := λ _, [] |};
     Cg.diffusion_function := None;
     Cg.diffusion_constant := None;
     Cg.dirichlet_clear_columns := false;
     Cg.dirichlet_clear_diag := false;
     Cg.map_parameter := λ mu _, Ok mu |}.

(** A grid of dimension three (one tetrahedron). *)
Definition tetrahedron_grid : @Cg.Grid Q :=
  {| Cg.dim := 3;
     Cg.size := λ codim, if decide (codim = 0) then 1 else 4;
     Cg.subentities := λ _ _, [[0; 1; 2; 3]];
     Cg.jacobian_inverse_transposed :=
       λ _, [[[1; 0; 0]; [0; 1; 0]; [0; 0; 1]]]%Q;
     Cg.volumes := λ _, [1 # 6];
     Cg.centers := λ _, [[1 # 4; 1 # 4; 1 # 4]] |}.

Definition laplace_3d : @Cg.DiffusionOperatorP1 Q unit :=
  {| Cg.grid := tetrahedron_grid;
     Cg.boundary_info := end_points;
     Cg.diffusion_function := None;
     Cg.diffusion_constant := None;
     Cg.dirichlet_clear_columns := false;
     Cg.dirichlet_clear_diag := false;
     Cg.map_parameter := λ mu _, Ok mu |}.

(** [assemble] over the rationals, duplicates summed in the given order. *)
Definition assemble_exact : @Cg.DiffusionOperatorP1 Q unit -> unit
                            -> Result (spmatrix Q) :=
  Cg.assemble 0%Q 1%Q Qopp Qplus Qmult id.

(** Exact arithmetic with reduced fractions. *)
Definition Qadd (x y : Q) : Q := Qred (x + y).
Definition Qmul (x y : Q) : Q := Qred (x * y).

(** The entry of an array at a multi-index (row-major). *)
Definition flat_index (sh idx : list nat) : nat :=
  foldl (λ acc p, acc * p.1 + p.2) 0 (zip sh idx).

Definition entry (a : @Cg.array Q) (idx : list nat) : Q :=
  default 0%Q (Cg.a_data a !! flat_index (Cg.a_shape a) idx).

Definition Qsum (xs : list Q) : Q := foldl Qadd 0%Q xs.

(** A stand-in for [np.einsum], for the two contractions that cg.py uses
    (on operands of fitting shapes) . *)
Definition einsum_exact (subscripts : string) (operands : list (@Cg.array Q))
  : Result (@Cg.array Q) :=
  match operands with
  | [a; b; c; d] =>
      if decide (subscripts = "eix,pi,e,i->ep") then
        match Cg.a_shape a, Cg.a_shape b with
        | [E; N; X], [P; _] =>
            Ok {| Cg.a_shape := [E; P];
                  Cg.a_data :=
                    e ← seq 0 E; p ← seq 0 P;
                    [Qsum (i ← seq 0 N; x ← seq 0 X;
                           [Qmul (Qmul (Qmul (entry a [e; i; x]) (entry b [p; i]))
                                       (entry c [e])) (entry d [i])])] |}
        | _, _ => Raise ValueError
        end
      else if decide (subscripts = "iq,jq,q,e->eij") then
        match Cg.a_shape a, Cg.a_shape d with
        | [P; N], [E] =>
            Ok {| Cg.a_shape := [E; P; P];
                  Cg.a_data :=
                    e ← seq 0 E; i ← seq 0 P; j ← seq 0 P;
                    [Qsum (q ← seq 0 N;
                           [Qmul (Qmul (Qmul (entry a [i; q]) (entry b [j; q]))
                                       (entry c [q])) (entry d [e])])] |}
        | _, _ => Raise ValueError
        end
      else Raise ValueError
  | _ => Raise ValueError
  end.

(** Quadrature rules with rational points: two points on the line, the
    three edge-adjacent points on the triangle. *)
Definition quadrature_exact (element : Cg.ReferenceElement) (order : nat)
  : @Cg.array Q * @Cg.array Q :=
  match element with
  | Cg.line =>
      ({| Cg.a_shape := [2; 1]; Cg.a_data := [1 # 4; 3 # 4] |},
       {| Cg.a_shape := [2]; Cg.a_data := [1 # 2; 1 # 2] |})
  | _ =>
      ({| Cg.a_shape := [3; 2];
          Cg.a_data := [1 # 6; 1 # 6; 2 # 3; 1 # 6; 1 # 6; 2 # 3] |},
       {| Cg.a_shape := [3]; Cg.a_data := [1 # 6; 1 # 6; 1 # 6] |})
  end.

(** The values stored for an array assigned to [k] places: its entries
    when there are [k] of them, its one entry repeated when there is one. *)
Definition values_for_exact (a : @Cg.array Q) (k : nat) : Result (list Q) :=
  if decide (length (Cg.a_data a) = k) then Ok (Cg.a_data a)
  else match Cg.a_data a with
       | [x] => Ok (replicate k x)
       | _ => Raise ValueError
       end.

(** The two intervals again, with the centers of the vertices as well. *)
Definition interval_grid_with_vertices : @Cg.Grid Q :=
  {| Cg.dim := 1;
     Cg.size := λ codim, if decide (codim = 0) then 2 else 3;
     Cg.subentities := λ _ _, [[0; 1]; [1; 2]];
     Cg.jacobian_inverse_transposed := λ _, [[[2%Q]]; [[2%Q]]];
     Cg.volumes := λ _, [1 # 2; 1 # 2];
     Cg.centers := λ codim, if decide (codim = 0) then [[1 # 4]; [3 # 4]]
                            else [[0]; [1 # 2]; [1]]%Q |}.

Definition interval_quadrature_grid : @Cg.QuadratureGrid Q :=
  {| Cg.base := interval_grid_with_vertices;
     Cg.reference_element := Cg.line;
     Cg.quadrature_points :=
       λ _ _, {| Cg.a_shape := [2; 2; 1];
                 Cg.a_data := [1 # 8; 3 # 8; 5 # 8; 7 # 8] |};
     Cg.integration_elements :=
       λ _, {| Cg.a_shape := [2]; Cg.a_data := [1 # 2; 1 # 2] |} |}.

(** The functional of the constant function one, with homogeneous and
    with given Dirichlet values at the end points. *)
Definition load (data : option (list (list Q) -> unit -> Result (@Cg.array Q)))
  : @Cg.L2ProductFunctionalP1 Q unit :=
  {| Cg.f_grid := interval_quadrature_grid;
     Cg.f_boundary_info := Some end_points;
     Cg.function := λ points _,
       Ok {| Cg.a_shape := [2; 2; 1]; Cg.a_data := [1; 1; 1; 1]%Q |};
     Cg.dirichlet_data := data;
     Cg.f_map_parameter := λ mu _, Ok mu |}.

Definition boundary_values (points : list (list Q)) (mu : unit)
  : Result (@Cg.array Q) :=
  Ok {| Cg.a_shape := [2]; Cg.a_data := [5; 7]%Q |}.

Definition functional_assemble_exact
  : @Cg.L2ProductFunctionalP1 Q unit -> unit -> Result (Matrix Q) :=
  Cg.functional_assemble 0%Q 1%Q Qopp Qadd
    quadrature_exact einsum_exact values_for_exact.

Definition product_assemble_exact : @Cg.L2ProductP1 Q -> Result (spmatrix Q) :=
  Cg.product_assemble 0%Q 1%Q Qopp Qadd id quadrature_exact einsum_exact.

End Scenario.

(** * Properties of [StationaryLinearDiscretization] *)

Section linear_properties.
Import Numpy Py Linear.
Context {F : Type} `{Countable F}.
Variables (defaults : @Defaults F) (zero : F).
Variable bicg : Matrix F -> ndarray F -> F -> nat -> Result (ndarray F * Z).
Variable linalg_solve : Matrix F -> ndarray F -> Result (ndarray F).

Local Abbreviation solve := (Linear.solve zero).
Local Abbreviation cached_solve := (Linear.cached_solve zero).
Local Abbreviation solve_all := (Linear.solve_all zero).
Local Abbreviation default_solver := (Linear.default_solver defaults bicg linalg_solve).
Local Abbreviation __init__ := (Linear.__init__ defaults bicg linalg_solve).
Local Abbreviation Discretization := (@StationaryLinearDiscretization F).
Local Abbreviation ParameterValue := (gmap string (ndarray F)).

(** The log line of [solve], unless logging is disabled. *)
Local Abbreviation log_events self A mu :=
  (if disable_logging self then [] else [EvLog (issparse A) mu]).

Lemma bind_ok {A B} (tr : list (@Event F)) (a : A) (k : A -> @M F B) :
  bind (tr, Ok a) k = (tr ++ (k a).1, (k a).2).
Proof. unfold bind. by destruct (k a). Qed.

Lemma bind_raise {A B} (tr : list (@Event F)) e (k : A -> @M F B) :
  bind (tr, Raise e) k = (tr, Raise e).
Proof. done. Qed.

Lemma bind_lift_ok {A B} (r : Result A) (a : A) (k : A -> @M F B) :
  r = Ok a -> bind (lift r) k = k a.
Proof. intros ->. unfold lift. rewrite bind_ok. by destruct (k a). Qed.

(** [solve] up to the test on [A.size]. *)
Lemma solve_assembled (self : Discretization) raw mu trA A :
  parse_parameter (parameter_type self) raw = Ok mu ->
  call_matrix self mu "operator" = (trA, Ok A) ->
  solve self raw =
    if bool_decide (size A = 0)
    then (trA ++ log_events self A mu, Ok (np_zeros zero 0))
    else bind (trA ++ log_events self A mu, Ok tt) (λ _,
           bind (call_matrix self mu "rhs") (λ R,
             bind (emit (EvSolver A (rhs_vector R))) (λ _,
               solver self A (rhs_vector R)))).
Proof.
  intros Hparse HA.
  unfold Linear.solve, rhs_vector, bind, lift, ret, emit.
  rewrite Hparse, HA.
  destruct (disable_logging self); cbn [negb]; case_bool_decide;
    repeat case_match; simplify_eq; cbn; rewrite ?app_nil_r; try done;
    by rewrite <- app_assoc.
Qed.

(** [solve] up to the call of the solver. *)
Lemma solve_reaches_solver (self : Discretization) raw mu trA A trR R :
  parse_parameter (parameter_type self) raw = Ok mu ->
  call_matrix self mu "operator" = (trA, Ok A) ->
  size A ≠ 0 ->
  call_matrix self mu "rhs" = (trR, Ok R) ->
  solve self raw =
    bind (trA ++ log_events self A mu ++ trR ++ [EvSolver A (rhs_vector R)], Ok tt)
         (λ _, solver self A (rhs_vector R)).
Proof.
  intros Hparse HA Hsize HR.
  rewrite (solve_assembled self raw mu trA A) by done.
  rewrite bool_decide_eq_false_2 by done.
  rewrite bind_ok, HR, bind_ok. cbn [fst snd].
  unfold emit. rewrite !bind_ok. cbn [fst snd].
  destruct (solver self A (rhs_vector R)) as [tr r]. cbn [fst snd].
  f_equal. by rewrite <- !app_assoc.
Qed.

(** What [__init__] stores. *)
Lemma init_fields operator rhs solver_arg visualizer name st (self : Discretization) st' :
  __init__ operator rhs solver_arg visualizer name st = (Ok self, st') ->
  operators self = {[ "operator" := operator; "rhs" := rhs ]}
  ∧ solver self = default default_solver solver_arg
  ∧ disable_logging self = false
  ∧ namespace self = next_namespace st
  ∧ next_namespace st' = S (next_namespace st)
  ∧ entries st' = entries st.
Proof.
  unfold Linear.__init__. intros Hinit.
  repeat case_match; simplify_eq; try done.
  unfold Cachable_init in *. simplify_eq. done.
Qed.

(** C5. If the assembled system matrix has size zero, [solve] returns the
    empty vector [np.zeros(0)]: after the operator's matrix has been
    requested (and the log line written) nothing else happens, and in
    particular no solver is called. *)
Theorem solve_zero_size (self : Discretization) raw mu trA A :
  parse_parameter (parameter_type self) raw = Ok mu ->
  call_matrix self mu "operator" = (trA, Ok A) ->
  size A = 0 ->
  solve self raw = (trA ++ log_events self A mu, Ok (np_zeros zero 0))
  ∧ np_zeros zero 0 = {| shape := [0]; data := Floats [] |}
  ∧ Forall (λ e, is_solver_event e = false) (solve self raw).1.
Proof.
  intros Hparse HA Hsize.
  assert (Hrun : solve self raw
                 = (trA ++ log_events self A mu, Ok (np_zeros zero 0))).
  { rewrite (solve_assembled self raw mu trA A) by done.
    by rewrite bool_decide_eq_true_2. }
  split_and!; [done | done |].
  rewrite Hrun. cbn [fst]. apply Forall_app. split.
  - unfold call_matrix, bind, lift, emit in HA.
    repeat case_match; simplify_eq; repeat constructor.
  - destruct (disable_logging self); repeat constructor.
Qed.

(** The squeezed right-hand side of a [(1, n)] row vector. *)
Lemma rhs_vector_row n (xs : payload F) :
  rhs_vector (Dense {| shape := [1; n]; data := xs |})
  = {| shape := [n]; data := xs |}.
Proof.
  unfold rhs_vector, np_squeeze, squeeze, newaxis, ndim. cbn [shape data].
  rewrite filter_cons_False by (intros ?; done).
  destruct (decide (n = 1)) as [-> | Hn].
  - rewrite filter_cons_False by (intros ?; done). done.
  - rewrite filter_cons_True by done. done.
Qed.

(** C10. When the [rhs] operator assembles a [(1, n)] row vector, the
    solver is called with the one-dimensional vector of shape [(n,)] that
    has the same entries; for [n = 1] the squeezed scalar has been given
    its axis back. *)
Theorem solve_rhs_one_dimensional (self : Discretization) raw mu trA A trR n xs :
  parse_parameter (parameter_type self) raw = Ok mu ->
  call_matrix self mu "operator" = (trA, Ok A) ->
  size A ≠ 0 ->
  call_matrix self mu "rhs" = (trR, Ok (Dense {| shape := [1; n]; data := xs |})) ->
  let RHS := {| shape := [n]; data := xs |} in
  ndim RHS = 1
  ∧ solve self raw =
      bind (trA ++ log_events self A mu ++ trR ++ [EvSolver A RHS], Ok tt)
           (λ _, solver self A RHS).
Proof.
  intros Hparse HA Hsize HR RHS. split; [done |].
  rewrite (solve_reaches_solver self raw mu trA A trR _ Hparse HA Hsize HR).
  by rewrite rhs_vector_row.
Qed.

(** [default_solver] (lines 84-89), run. *)
Lemma default_solver_run A RHS :
  default_solver A RHS =
    if issparse A
    then ([EvBicg A RHS (bicg_tol defaults) (bicg_maxiter defaults)],
          and_then (bicg A RHS (bicg_tol defaults) (bicg_maxiter defaults))
                   (λ U_info, Ok U_info.1))
    else ([EvLinalgSolve A RHS], linalg_solve A RHS).
Proof.
  unfold Linear.default_solver, bind, emit, lift, ret, and_then.
  destruct (issparse A).
  - by destruct (bicg _ _ _ _) as [[U info] | e].
  - by destruct (linalg_solve _ _).
Qed.

(** C1 (as amended). For a discretization built by [__init__], whenever the
    assembled system matrix has a non-zero size: without a [solver]
    argument a sparse matrix goes to [bicg] with [defaults.bicg_tol] and
    [defaults.bicg_maxiter], a dense one to [numpy.linalg.solve]; with a
    [solver] argument that function is called and neither of the two. *)
Theorem solve_dispatch operator rhs solver_arg visualizer name st
    (self : Discretization) st' raw mu trA A trR R :
  __init__ operator rhs solver_arg visualizer name st = (Ok self, st') ->
  parse_parameter (parameter_type self) raw = Ok mu ->
  call_matrix self mu "operator" = (trA, Ok A) ->
  size A ≠ 0 ->
  call_matrix self mu "rhs" = (trR, Ok R) ->
  let RHS := rhs_vector R in
  let calls := trA ++ [EvLog (issparse A) mu] ++ trR ++ [EvSolver A RHS] in
  solve self raw =
    match solver_arg with
    | Some user_solver => bind (calls, Ok tt) (λ _, user_solver A RHS)
    | None =>
        if issparse A
        then (calls ++ [EvBicg A RHS (bicg_tol defaults) (bicg_maxiter defaults)],
              and_then (bicg A RHS (bicg_tol defaults) (bicg_maxiter defaults))
                       (λ U_info, Ok U_info.1))
        else (calls ++ [EvLinalgSolve A RHS], linalg_solve A RHS)
    end.
Proof.
  intros Hinit Hparse HA Hsize HR RHS calls.
  destruct (init_fields _ _ _ _ _ _ _ _ Hinit) as (_ & Hsolver & Hlog & _).
  rewrite (solve_reaches_solver self raw mu trA A trR R) by done.
  rewrite Hsolver, Hlog. fold RHS. fold calls.
  destruct solver_arg as [user_solver |]; cbn [default]; [done |].
  rewrite default_solver_run, bind_ok.
  by destruct (issparse A).
Qed.

(** C3 (as amended). On the default path for a sparse matrix, when [bicg]
    stops at the iteration cap ([info > 0]) [solve] returns the iterate
    that [bicg] handed back as an ordinary result: the [info] flag is
    dropped and no exception is raised. *)
Theorem solve_returns_bicg_iterate operator rhs visualizer name st
    (self : Discretization) st' raw mu trA A trR R U info :
  __init__ operator rhs None visualizer name st = (Ok self, st') ->
  parse_parameter (parameter_type self) raw = Ok mu ->
  call_matrix self mu "operator" = (trA, Ok A) ->
  size A ≠ 0 ->
  issparse A = true ->
  call_matrix self mu "rhs" = (trR, Ok R) ->
  bicg A (rhs_vector R) (bicg_tol defaults) (bicg_maxiter defaults) = Ok (U, info) ->
  (0 < info)%Z ->
  (solve self raw).2 = Ok U.
Proof.
  intros Hinit Hparse HA Hsize Hsparse HR Hbicg _.
  destruct (init_fields _ _ _ _ _ _ _ _ Hinit) as (_ & Hsolver & _).
  rewrite (solve_reaches_solver self raw mu trA A trR R) by done.
  rewrite Hsolver. cbn [default].
  rewrite default_solver_run, bind_ok, Hsparse, Hbicg. done.
Qed.

(** *** Validation comes first *)

Lemma parse_parameter_invalid (schema : gmap string (list nat)) (raw : ParameterValue) :
  unknown_name schema raw ∨ incompatible_shape schema raw
    ∨ missing_component schema raw ->
  parse_parameter schema raw = Raise ParameterValidationError.
Proof.
  intros Hbad. unfold parse_parameter.
  destruct (decide _) as [Hknown |]; [| done].
  destruct (decide _) as [Hshape |]; [| done].
  destruct (decide _) as [Hpresent |]; [| done].
  exfalso. destruct Hbad as [(k & [a Ha] & Hk) | [(k & a & s & Ha & Hs & Hb) | (k & [s Hs] & Hk)]].
  - apply Hknown in Ha. rewrite Hk in Ha. by destruct Ha.
  - apply Hshape in Ha. rewrite Hs in Ha. cbn in Ha. congruence.
  - apply Hpresent in Hs. rewrite Hk in Hs. by destruct Hs.
Qed.

(** C8. A parameter that fails validation against the discretization's
    parameter type (a name the type lacks, a shape that cannot be
    broadcast to the declared one, or a missing component) makes [solve]
    raise [ParameterValidationError] with no call made at all: no
    operator matrix is requested, no solver runs, and the cache is left
    as it was. *)
Theorem solve_invalid_parameter (self : Discretization) raw st :
  unknown_name (parameter_type self) raw
    ∨ incompatible_shape (parameter_type self) raw
    ∨ missing_component (parameter_type self) raw ->
  cached_solve self raw st = (([], Raise ParameterValidationError), st)
  ∧ solve self raw = ([], Raise ParameterValidationError).
Proof.
  intros Hbad. apply parse_parameter_invalid in Hbad.
  unfold Linear.cached_solve, Linear.solve. rewrite Hbad. done.
Qed.

(** *** The cache around [solve] *)

Lemma get_or_compute_hit ns key (m : @M F (ndarray F)) st v :
  entries st !! (ns, key) = Some v ->
  get_or_compute ns key m st = (([], Ok v), st).
Proof. intros Hhit. unfold get_or_compute. by rewrite Hhit. Qed.

Lemma get_or_compute_miss ns key (m : @M F (ndarray F)) st :
  entries st !! (ns, key) = None ->
  get_or_compute ns key m st =
    match m.2 with
    | Ok v => ((EvCompute ns key :: m.1, Ok v),
               {| next_namespace := next_namespace st;
                  entries := <[(ns, key) := v]> (entries st) |})
    | Raise e => ((EvCompute ns key :: m.1, Raise e), st)
    end.
Proof.
  intros Hmiss. unfold get_or_compute, bind, emit. rewrite Hmiss.
  by destruct m as [tr [v | e]].
Qed.

(** C2 (as amended). When a [solve] call returns a value, the next call
    with the same parameter returns the same value from the cache, makes
    no call at all and leaves the cache as it is; and the first call
    itself either was served from the cache (no call made) or, the
    parameter having no entry yet, ran the wrapped function once: its
    trace is one [EvCompute] followed by the calls of the function body. *)
Theorem solve_twice_computes_once (self : Discretization) raw st tr1 v st1 :
  cached_solve self raw st = ((tr1, Ok v), st1) ->
  cached_solve self raw st1 = (([], Ok v), st1)
  ∧ ∃ key,
      parse_parameter (parameter_type self) raw = Ok key
      ∧ match entries st !! (namespace self, key) with
        | Some stored => stored = v ∧ tr1 = [] ∧ st1 = st
        | None =>
            tr1 = EvCompute (namespace self) key :: (solve self raw).1
            ∧ (solve self raw).2 = Ok v
        end.
Proof.
  intros Hfirst. unfold Linear.cached_solve in *.
  destruct (parse_parameter (parameter_type self) raw) as [key | e] eqn:Hparse;
    [| done].
  destruct (entries st !! (namespace self, key)) as [stored |] eqn:Hentry.
  - rewrite (get_or_compute_hit _ _ _ _ _ Hentry) in Hfirst.
    injection Hfirst as <- <- <-.
    split; [by apply get_or_compute_hit |].
    exists key. by rewrite Hentry.
  - rewrite get_or_compute_miss in Hfirst by done.
    destruct (solve self raw) as [tr [v' | e]] eqn:Hbody; cbn [fst snd] in *;
      simplify_eq.
    split.
    + apply get_or_compute_hit. cbn [entries]. apply lookup_insert_eq.
    + exists key. by rewrite Hentry.
Qed.

(** A call that raises leaves the cache as it was. *)
Lemma cached_solve_raise (self : Discretization) raw st tr e st1 :
  cached_solve self raw st = ((tr, Raise e), st1) -> st1 = st.
Proof.
  unfold Linear.cached_solve.
  destruct (parse_parameter _ _) as [key |]; [| by intros [= _ _ <-]].
  unfold get_or_compute.
  destruct (entries st !! _); [done |].
  destruct (bind _ _) as [tr' [v' | e']]; [done |]. by intros [= _ _ <-].
Qed.

(** What a call returns is stored under the namespace of its object. *)
Lemma cached_solve_stores (self : Discretization) raw st key tr v st1 :
  parse_parameter (parameter_type self) raw = Ok key ->
  cached_solve self raw st = ((tr, Ok v), st1) ->
  entries st1 !! (namespace self, key) = Some v.
Proof.
  intros Hparse Hrun. unfold Linear.cached_solve in Hrun.
  rewrite Hparse in Hrun. unfold get_or_compute in Hrun.
  destruct (entries st !! (namespace self, key)) as [stored |] eqn:Hentry.
  - by injection Hrun as <- <- <-.
  - destruct (bind _ _) as [tr' [v' | e']]; [| done].
    injection Hrun as <- <- <-. cbn [entries]. apply lookup_insert_eq.
Qed.

Lemma cached_solve_frame (self : Discretization) raw st ns :
  ns ≠ namespace self ->
  agree_on ns (cached_solve self raw st).2 st.
Proof.
  intros Hns key. unfold Linear.cached_solve.
  destruct (parse_parameter _ _) as [k | e]; [| done].
  unfold get_or_compute.
  destruct (entries st !! (namespace self, k)); [done |].
  destruct (bind _ _) as [tr [v | e]]; [| done].
  cbn [snd entries]. apply lookup_insert_ne. congruence.
Qed.

Lemma cached_solve_local (self : Discretization) raw st st' :
  agree_on (namespace self) st st' ->
  (cached_solve self raw st).1 = (cached_solve self raw st').1
  ∧ agree_on (namespace self) (cached_solve self raw st).2 (cached_solve self raw st').2.
Proof.
  intros Hagree. unfold Linear.cached_solve.
  destruct (parse_parameter _ _) as [k | e]; [| done].
  unfold get_or_compute. rewrite <- (Hagree k).
  destruct (entries st !! (namespace self, k)); [done |].
  destruct (bind _ _) as [tr [v | e]]; [| done].
  split; [done |]. intros key. cbn [snd entries].
  destruct (decide ((namespace self, k) = (namespace self, key))) as [-> | Hne].
  - by rewrite !lookup_insert_eq.
  - rewrite !lookup_insert_ne by done. apply Hagree.
Qed.

Lemma solve_all_frame (self : Discretization) mus st ns :
  ns ≠ namespace self ->
  agree_on ns (solve_all self mus st).2 st.
Proof.
  intros Hns. revert st. induction mus as [| mu mus IH]; intros st; [done |].
  cbn [Linear.solve_all].
  pose proof (cached_solve_frame self mu st ns Hns) as Hstep.
  destruct (cached_solve self mu st) as [r st1].
  specialize (IH st1). destruct (solve_all self mus st1) as [rs st2].
  intros key. cbn [snd] in *. by rewrite IH, Hstep.
Qed.


(** *** Construction *)

(** C6. [__init__] raises [AssertionError], leaving the cache store
    untouched, unless
    [operator.dim_source == operator.dim_range == rhs.dim_source] and
    [rhs.dim_range == 1]; and the operators of every discretization that
    it returns satisfy both relations. *)
Theorem init_checks_dimensions operator rhs solver_arg visualizer name st :
  (¬ (dim_source operator = dim_range operator
      ∧ dim_range operator = dim_source rhs ∧ dim_range rhs = 1) ->
   __init__ operator rhs solver_arg visualizer name st = (Raise AssertionError, st))
  ∧ (∀ (self : Discretization) st',
       __init__ operator rhs solver_arg visualizer name st = (Ok self, st') ->
       dict_property self "operator" = Ok operator
       ∧ dict_property self "rhs" = Ok rhs
       ∧ dim_source operator = dim_range operator
       ∧ dim_range operator = dim_source rhs
       ∧ dim_range rhs = 1
       ∧ solution_dim self = dim_range operator).
Proof.
  unfold Linear.__init__. split.
  - intros Hbad.
    destruct (decide (dim_source operator = dim_range operator
                      ∧ dim_range operator = dim_source rhs)) as [Hsquare | Hsquare].
    + rewrite (bool_decide_eq_true_2 _ Hsquare). cbn [negb].
      destruct (decide (dim_range rhs = 1)) as [Hfunctional | Hfunctional].
      * destruct Hbad. by destruct Hsquare.
      * by rewrite (bool_decide_eq_false_2 _ Hfunctional).
    + by rewrite (bool_decide_eq_false_2 _ Hsquare).
  - intros self st' Hinit.
    destruct (decide (dim_source operator = dim_range operator
                      ∧ dim_range operator = dim_source rhs)) as [Hsquare | Hsquare].
    2: { by rewrite (bool_decide_eq_false_2 _ Hsquare) in Hinit. }
    rewrite (bool_decide_eq_true_2 _ Hsquare) in Hinit. cbn [negb] in Hinit.
    destruct (decide (dim_range rhs = 1)) as [Hfunctional | Hfunctional].
    2: { by rewrite (bool_decide_eq_false_2 _ Hfunctional) in Hinit. }
    rewrite (bool_decide_eq_true_2 _ Hfunctional) in Hinit. cbn [negb] in Hinit.
    destruct (Cachable_init _ _) as [ns st1].
    destruct (build_parameter_type _ _) as [ty | e]; simplify_eq.
    unfold dict_property. cbn [operators solution_dim].
    rewrite lookup_insert_eq.
    rewrite lookup_insert_ne by done. rewrite lookup_singleton_eq.
    by destruct Hsquare.
Qed.

End linear_properties.

(** ** The properties on concrete systems *)

Section linear_scenarios.
Import Numpy Py Linear Scenario.

Local Abbreviation solve := (Linear.solve 0%Q).
Local Abbreviation cached_solve := (Linear.cached_solve 0%Q).
Local Abbreviation solve_all := (Linear.solve_all 0%Q).
Local Abbreviation __init__ :=
  (Linear.__init__ defaults bicg_exact linalg_solve_exact).
Local Abbreviation no_parameter := (∅ : gmap string (ndarray Q)).
Local Abbreviation first_store :=
  ({| next_namespace := 1; entries := ∅ |} : @CacheStore Q _ _).

Lemma init_system operator rhs solver_arg :
  dim_source operator = dim_range operator ->
  dim_range operator = dim_source rhs ->
  dim_range rhs = 1 ->
  op_parameter_type operator = ∅ ->
  op_parameter_type rhs = ∅ ->
  __init__ operator rhs solver_arg None None empty_store
  = (Ok (system operator rhs solver_arg), first_store).
Proof.
  intros Hsquare Hrhs Hfunctional Hop Hf. unfold Linear.__init__.
  rewrite bool_decide_eq_true_2 by done.
  rewrite bool_decide_eq_true_2 by done.
  cbn [negb Cachable_init empty_store next_namespace entries].
  rewrite Hop, Hf. reflexivity.
Qed.

(** C4. The discretization built from [diag(1, 2, 3)] and the functional
    [[1, 1, 1]], solved for the empty parameter: the first call computes,
    requests both matrices, calls [numpy.linalg.solve] (and not [bicg]) and
    returns [[1, 1/2, 1/3]]; the second call returns the same vector and
    makes no call. *)
Theorem diag_scenario :
  let A := dense 3 3 [[1; 0; 0]; [0; 2; 0]; [0; 0; 3]]%Q in
  let b := vector [1; 1; 1]%Q in
  let x := vector [1; 1 # 2; 1 # 3]%Q in
  ∃ self st0 st1,
    __init__ diag123 ones3 None None None empty_store = (Ok self, st0)
    ∧ solution_dim self = 3
    ∧ cached_solve self no_parameter st0
      = (([EvCompute 0 no_parameter;
           EvMatrix "operator" no_parameter; EvLog false no_parameter;
           EvMatrix "rhs" no_parameter;
           EvSolver A b; EvLinalgSolve A b], Ok x), st1)
    ∧ cached_solve self no_parameter st1 = (([], Ok x), st1).
Proof.
  intros A b x.
  exists (system diag123 ones3 None), first_store,
    {| next_namespace := 1;
       entries := <[(0, no_parameter) := x]> ∅ |}.
  split_and!.
  - by apply init_system.
  - reflexivity.
  - reflexivity.
  - reflexivity.
Qed.

(** C1, the claim as stated fails: a discretization built without a solver
    whose sparse system matrix has size zero is solved without any call of
    [bicg], and one built with a solver of its own is solved without a
    call of that solver. *)
Lemma solve_dispatch_counterexample :
  let A := Sparse {| sp_shape := (0, 0); sp_entries := [] |} in
  let user_solver : Solver := λ _ b, ([], Ok b) in
  issparse A = true
  ∧ __init__ sparse_empty rhs_empty None None None empty_store
    = (Ok (system sparse_empty rhs_empty None), first_store)
  ∧ call_matrix (system sparse_empty rhs_empty None) no_parameter "operator"
    = ([EvMatrix "operator" no_parameter], Ok A)
  ∧ solve (system sparse_empty rhs_empty None) no_parameter
    = ([EvMatrix "operator" no_parameter; EvLog true no_parameter],
       Ok (np_zeros 0%Q 0))
  ∧ __init__ sparse_empty rhs_empty (Some user_solver) None None empty_store
    = (Ok (system sparse_empty rhs_empty (Some user_solver)), first_store)
  ∧ solve (system sparse_empty rhs_empty (Some user_solver)) no_parameter
    = ([EvMatrix "operator" no_parameter; EvLog true no_parameter],
       Ok (np_zeros 0%Q 0)).
Proof.
  intros A user_solver. split_and!.
  - reflexivity.
  - by apply init_system.
  - reflexivity.
  - reflexivity.
  - by apply init_system.
  - reflexivity.
Qed.

Lemma solve_dispatch_witness :
  let A := dense 3 3 [[1; 0; 0]; [0; 2; 0]; [0; 0; 3]]%Q in
  let b := vector [1; 1; 1]%Q in
  solve (system diag123 ones3 None) no_parameter
  = ([EvMatrix "operator" no_parameter; EvLog false no_parameter;
      EvMatrix "rhs" no_parameter; EvSolver A b; EvLinalgSolve A b],
     linalg_solve_exact A b).
Proof.
  intros A b.
  apply (solve_dispatch defaults 0%Q bicg_exact linalg_solve_exact
           diag123 ones3 None None None empty_store
           (system diag123 ones3 None) first_store
           no_parameter no_parameter
           [EvMatrix "operator" no_parameter] A
           [EvMatrix "rhs" no_parameter] (dense 1 3 [[1; 1; 1]]%Q)).
  - by apply init_system.
  - reflexivity.
  - reflexivity.
  - cbn. lia.
  - reflexivity.
Defined.

(** C3, the claim as stated fails. For [diag(1, 2) x = [1, 1]] and an
    iteration cap of one step, [bicg] stops after its first step at
    [[2/3, 2/3]] (the residual [[1/3, -1/3]] is far from the tolerance) and
    reports [info = 1]; the solution is [[1, 1/2]]. [solve] returns the
    iterate as its result and raises nothing. *)
Lemma solve_nonconvergence_counterexample :
  let A := Sparse {| sp_shape := (2, 2);
                     sp_entries := [(0, 0, 1%Q); (1, 1, 2%Q)] |} in
  let b := vector [1; 1]%Q in
  let U := vector [2 # 3; 2 # 3] in
  Linear.__init__ one_step bicg_exact linalg_solve_exact
    sparse_diag12 ones2 None None None empty_store
  = (Ok capped_system, first_store)
  ∧ bicg_exact A b (bicg_tol one_step) (bicg_maxiter one_step) = Ok (U, 1%Z)
  ∧ linalg_solve_exact (dense 2 2 [[1; 0]; [0; 2]]%Q) b = Ok (vector [1; 1 # 2]%Q)
  ∧ solve capped_system no_parameter
    = ([EvMatrix "operator" no_parameter; EvLog true no_parameter;
        EvMatrix "rhs" no_parameter; EvSolver A b;
        EvBicg A b (bicg_tol one_step) (bicg_maxiter one_step)],
       Ok U).
Proof.
  intros A b U. split_and!.
  - reflexivity.
  - reflexivity.
  - reflexivity.
  - reflexivity.
Qed.

Lemma solve_returns_bicg_iterate_witness :
  (solve capped_system no_parameter).2 = Ok (vector [2 # 3; 2 # 3]).
Proof.
  apply (solve_returns_bicg_iterate one_step 0%Q bicg_exact linalg_solve_exact
           sparse_diag12 ones2 None None empty_store
           capped_system first_store
           no_parameter no_parameter
           [EvMatrix "operator" no_parameter]
           (Sparse {| sp_shape := (2, 2);
                      sp_entries := [(0, 0, 1%Q); (1, 1, 2%Q)] |})
           [EvMatrix "rhs" no_parameter] (dense 1 2 [[1; 1]]%Q)
           (vector [2 # 3; 2 # 3]) 1%Z).
  - reflexivity.
  - reflexivity.
  - reflexivity.
  - cbn. lia.
  - reflexivity.
  - reflexivity.
  - reflexivity.
  - lia.
Defined.

Lemma solve_zero_size_witness :
  solve (system sparse_empty rhs_empty None) no_parameter
  = ([EvMatrix "operator" no_parameter; EvLog true no_parameter],
     Ok (np_zeros 0%Q 0))
  ∧ np_zeros 0%Q 0 = {| shape := [0]; data := Floats [] |}
  ∧ Forall (λ e, is_solver_event e = false)
           (solve (system sparse_empty rhs_empty None) no_parameter).1.
Proof.
  apply (solve_zero_size 0%Q (system sparse_empty rhs_empty None)
           no_parameter no_parameter [EvMatrix "operator" no_parameter]
           (Sparse {| sp_shape := (0, 0); sp_entries := [] |})).
  - reflexivity.
  - reflexivity.
  - reflexivity.
Defined.

Lemma solve_rhs_one_dimensional_witness :
  let A := Sparse {| sp_shape := (1, 1); sp_entries := [(0, 0, 2%Q)] |} in
  let RHS := {| shape := [1]; data := Floats [1%Q] |} in
  ndim RHS = 1
  ∧ solve (system sparse_two one1 None) no_parameter
    = bind ([EvMatrix "operator" no_parameter; EvLog true no_parameter;
             EvMatrix "rhs" no_parameter; EvSolver A RHS], Ok tt)
           (λ _, default_solver defaults bicg_exact linalg_solve_exact A RHS).
Proof.
  intros A RHS.
  apply (solve_rhs_one_dimensional 0%Q (system sparse_two one1 None)
           no_parameter no_parameter [EvMatrix "operator" no_parameter] A
           [EvMatrix "rhs" no_parameter] 1 (Floats [1%Q])).
  - reflexivity.
  - reflexivity.
  - cbn. lia.
  - reflexivity.
Defined.

Lemma solve_twice_computes_once_witness :
  let self := system diag123 ones3 None in
  let A := dense 3 3 [[1; 0; 0]; [0; 2; 0]; [0; 0; 3]]%Q in
  let b := vector [1; 1; 1]%Q in
  let x := vector [1; 1 # 2; 1 # 3]%Q in
  let tr1 := [EvCompute 0 no_parameter;
              EvMatrix "operator" no_parameter; EvLog false no_parameter;
              EvMatrix "rhs" no_parameter;
              EvSolver A b; EvLinalgSolve A b] in
  let st1 := {| next_namespace := 1;
                entries := <[(0, no_parameter) := x]> ∅ |} in
  cached_solve self no_parameter st1 = (([], Ok x), st1)
  ∧ ∃ key,
      parse_parameter (parameter_type self) no_parameter = Ok key
      ∧ match entries first_store !! (namespace self, key) with
        | Some stored => stored = x ∧ tr1 = [] ∧ st1 = first_store
        | None =>
            tr1 = EvCompute (namespace self) key :: (solve self no_parameter).1
            ∧ (solve self no_parameter).2 = Ok x
        end.
Proof.
  intros self A b x tr1 st1.
  apply (solve_twice_computes_once 0%Q self no_parameter first_store tr1 x st1).
  reflexivity.
Defined.

(** C2, the claim as stated fails. For the singular dense system
    [0 x = 1], [numpy.linalg.solve] raises [LinAlgError]; nothing is
    stored, and the second call with the same parameter requests both
    matrices and calls the solver once more. *)
Lemma solve_twice_raises_counterexample :
  let self := system singular1 one1 None in
  let A := dense 1 1 [[0%Q]] in
  let b := vector [1%Q] in
  let calls := [EvCompute 0 no_parameter;
                EvMatrix "operator" no_parameter; EvLog false no_parameter;
                EvMatrix "rhs" no_parameter;
                EvSolver A b; EvLinalgSolve A b] in
  __init__ singular1 one1 None None None empty_store = (Ok self, first_store)
  ∧ linalg_solve_exact A b = Raise LinAlgError
  ∧ cached_solve self no_parameter first_store
    = ((calls, Raise LinAlgError), first_store)
  ∧ cached_solve self no_parameter
      (cached_solve self no_parameter first_store).2
    = ((calls, Raise LinAlgError), first_store).
Proof.
  intros self A b calls. split_and!.
  - by apply init_system.
  - reflexivity.
  - reflexivity.
  - reflexivity.
Qed.

Lemma solve_invalid_parameter_witness :
  cached_solve with_diffusion no_parameter empty_store
  = (([], Raise ParameterValidationError), empty_store)
  ∧ solve with_diffusion no_parameter = ([], Raise ParameterValidationError).
Proof.
  apply (solve_invalid_parameter 0%Q with_diffusion no_parameter empty_store).
  right. right. exists "diffusion". split.
  - exists []. reflexivity.
  - reflexivity.
Defined.



End linear_scenarios.

(** * Properties of [DiffusionOperatorP1.assemble] *)

Section cg_properties.
Import Numpy Py Cg.
Context {F Mu : Type}.
Variables (zero one : F) (opp : F -> F) (add mul : F -> F -> F).
Variable sort_indices : list (nat * nat * F) -> list (nat * nat * F).

(** The arithmetic that the boundary rows need, and the one fact about the
    order in which duplicates are summed: it is some rearrangement. *)
Hypothesis add_zero_zero : add zero zero = zero.
Hypothesis add_zero_one : add zero one = one.
Hypothesis add_one_zero : add one zero = one.
Hypothesis sort_indices_perm : ∀ es, sort_indices es ≡ₚ es.

Local Abbreviation add_entry := (Cg.add_entry add).
Local Abbreviation sum_duplicates := (Cg.sum_duplicates add).
Local Abbreviation accumulate := (Cg.accumulate add).
Local Abbreviation csr_matrix := (Cg.csr_matrix add sort_indices).
Local Abbreviation get := (Cg.get zero).
Local Abbreviation np_where_zero := (Cg.np_where_zero zero).
Local Abbreviation zero_where := (Cg.zero_where zero).
Local Abbreviation boundary_treatment := (@Cg.boundary_treatment F Mu zero one).
Local Abbreviation assemble :=
  (@Cg.assemble F Mu zero one opp add mul sort_indices).
Local Abbreviation Operator := (@DiffusionOperatorP1 F Mu).

(** *** Summation of duplicates *)

Lemma stored_add_entry pos acc (e : nat * nat * F) :
  stored pos (add_entry acc e) =
    if decide (e.1 = pos)
    then Some (match stored pos acc with Some x => add x e.2 | None => e.2 end)
    else stored pos acc.
Proof.
  induction acc as [| e' acc IH]; cbn [Cg.add_entry stored].
  - done.
  - destruct (decide (e'.1 = e.1)) as [Hsame | Hother]; cbn [stored fst snd].
    + rewrite Hsame. by destruct (decide (e.1 = pos)).
    + destruct (decide (e'.1 = pos)) as [<- | Hpos].
      * by rewrite decide_False by done.
      * apply IH.
Qed.

Lemma stored_foldl_add_entry pos es acc :
  stored pos (foldl add_entry acc es)
  = accumulate (stored pos acc) (values_at pos es).
Proof.
  revert acc. induction es as [| e es IH]; intros acc; cbn [foldl].
  - unfold values_at. cbn. by destruct (stored pos acc).
  - rewrite IH, stored_add_entry. unfold values_at.
    destruct (decide (e.1 = pos)) as [Hpos | Hpos].
    + rewrite filter_cons_True by done. cbn [fmap list_fmap].
      by destruct (stored pos acc).
    + by rewrite filter_cons_False by done.
Qed.

Lemma foldl_add_zeros x zs :
  add x zero = x -> Forall (λ z, z = zero) zs -> foldl add x zs = x.
Proof.
  intros Hx. induction 1 as [| z zs -> _ IH]; cbn [foldl]; [done |].
  by rewrite Hx.
Qed.

Lemma accumulate_zeros zs :
  Forall (λ z, z = zero) zs -> default zero (accumulate None zs) = zero.
Proof.
  destruct 1 as [| z zs -> Hzs]; cbn; [done |].
  by apply foldl_add_zeros.
Qed.

Lemma accumulate_one_among_zeros vs zs :
  vs ≡ₚ one :: zs -> Forall (λ z, z = zero) zs ->
  accumulate None vs = Some one.
Proof.
  intros Hperm Hzs.
  assert (Hin : one ∈ vs) by (rewrite Hperm; left).
  apply list_elem_of_split in Hin as (l1 & l2 & ->).
  assert (Hrest : zs ≡ₚ l1 ++ l2).
  { apply (Permutation_cons_app_inv l1 l2 (a := one)). by symmetry. }
  rewrite Hrest in Hzs. apply Forall_app in Hzs as [Hl1 Hl2].
  destruct Hl1 as [| z l1 -> Hl1]; cbn [Cg.accumulate app].
  - f_equal. by apply foldl_add_zeros.
  - f_equal. rewrite foldl_app. cbn [foldl].
    rewrite (foldl_add_zeros zero l1) by done.
    rewrite add_zero_one. by apply foldl_add_zeros.
Qed.

Lemma values_at_perm pos (es es' : list (nat * nat * F)) :
  es ≡ₚ es' -> values_at pos es ≡ₚ values_at pos es'.
Proof. intros Hperm. unfold values_at. by rewrite Hperm. Qed.

Lemma get_csr_matrix (A : coo) i j :
  get (csr_matrix A) i j
  = default zero (accumulate None (values_at (i, j) (sort_indices (coo_entries A)))).
Proof.
  unfold Cg.get, Cg.csr_matrix, Cg.sum_duplicates. cbn [sp_entries].
  by rewrite stored_foldl_add_entry.
Qed.

(** *** Boundary treatment *)

Lemma and_then_ok {A B} (r : Result A) (k : A -> Result B) b :
  and_then r k = Ok b -> ∃ a, r = Ok a ∧ k a = Ok b.
Proof. destruct r as [a | e]; [eauto | done]. Qed.

Lemma take_mask_ok mask I M :
  take_mask mask I = Ok M ->
  length M = length I ∧ ∀ k i, I !! k = Some i -> M !! k = mask !! i.
Proof.
  unfold take_mask, of_option. destruct (mapM _ I) as [M' |] eqn:HM; [| done].
  intros [= <-]. apply mapM_Some in HM. split.
  - symmetry. by eapply Forall2_length.
  - intros k i Hi.
    destruct (Forall2_lookup_l _ _ _ _ _ HM Hi) as (m & Hm & Hmask).
    by rewrite Hm, Hmask.
Qed.

Lemma np_where_zero_ok (cond : list bool) (xs ys : list F) :
  np_where_zero cond xs = Ok ys ->
  length cond = length xs ∧ length ys = length xs
  ∧ (∀ k, cond !! k = Some true -> ys !! k = Some zero)
  ∧ (∀ k, xs !! k = Some zero -> ys !! k = Some zero).
Proof.
  unfold Cg.np_where_zero. destruct (decide _) as [Hlen |]; [| done].
  intros [= <-]. split_and!.
  - done.
  - rewrite length_zip_with. lia.
  - intros k Hk.
    destruct (lookup_lt_is_Some_2 xs k) as [x Hx].
    { rewrite <- Hlen. by eapply lookup_lt_Some. }
    apply lookup_zip_with_Some. by exists true, x.
  - intros k Hx.
    destruct (lookup_lt_is_Some_2 cond k) as [c Hc].
    { rewrite Hlen. by eapply lookup_lt_Some. }
    apply lookup_zip_with_Some. exists c, zero. by destruct c.
Qed.

Lemma boundary_treatment_ok (self : Operator) SF_INTS SF_I0 SF_I1 V R C :
  has_dirichlet (boundary_info self) = true ->
  dirichlet_clear_diag self = false ->
  boundary_treatment self SF_INTS SF_I0 SF_I1 = Ok (V, R, C) ->
  let mask := dirichlet_mask (boundary_info self) (dim (grid self)) in
  let DB := dirichlet_boundaries (boundary_info self) (dim (grid self)) in
  ∃ V0, V = V0 ++ replicate (length DB) one
        ∧ R = SF_I0 ++ DB ∧ C = SF_I1 ++ DB
        ∧ length V0 = length SF_I0
        ∧ zero_where mask SF_I0 V0
        ∧ (dirichlet_clear_columns self = true -> zero_where mask SF_I1 V0).
Proof.
  intros Hdir Hdiag Hrun mask DB. unfold Cg.boundary_treatment in Hrun.
  rewrite Hdir, Hdiag in Hrun. cbn [negb] in Hrun. fold mask DB in Hrun.
  apply and_then_ok in Hrun as (M0 & HM0 & Hrun).
  apply and_then_ok in Hrun as (V1 & HV1 & Hrun).
  apply and_then_ok in Hrun as (V2 & HV2 & Hrun).
  injection Hrun as <- <- <-.
  apply take_mask_ok in HM0 as [HlenM0 HM0].
  apply np_where_zero_ok in HV1 as (Hlen1 & HlenV1 & Hrows1 & _).
  assert (Hrows : zero_where mask SF_I0 V1).
  { intros k i Hi Hmask. apply Hrows1. by rewrite (HM0 k i). }
  destruct (dirichlet_clear_columns self).
  - apply and_then_ok in HV2 as (M1 & HM1 & HV2).
    apply take_mask_ok in HM1 as [HlenM1 HM1].
    apply np_where_zero_ok in HV2 as (Hlen2 & HlenV2 & Hcols2 & Hkeep).
    exists V2. split_and!; [done | done | done | lia | |].
    + intros k i Hi Hmask. apply Hkeep. by eapply Hrows.
    + intros _ k j Hj Hmask. apply Hcols2. by rewrite (HM1 k j).
  - injection HV2 as <-.
    exists V1. split_and!; [done | done | done | lia | done | done].
Qed.

(** *** Entries of the assembled matrix *)

Lemma values_at_zero_rows mask (I0 I1 : list nat) (V0 : list F) d j :
  zero_where mask I0 V0 -> mask !! d = Some true ->
  Forall (λ z, z = zero) (values_at (d, j) (zip (zip I0 I1) V0)).
Proof.
  intros Hzero Hmask. unfold values_at.
  apply Forall_fmap, Forall_forall. intros [[i' j'] v] Hin.
  apply list_elem_of_filter in Hin as [Hpos Hin]. cbn in Hpos.
  injection Hpos as -> ->.
  apply list_elem_of_lookup in Hin as [k Hk].
  apply lookup_zip_with_Some in Hk as (p & v' & Heq & Hp & Hv).
  apply lookup_zip_with_Some in Hp as (i0 & j0 & Hp & Hi & Hj).
  rewrite Hp in Heq. injection Heq as -> -> ->.
  cbn. specialize (Hzero k _ Hi Hmask). congruence.
Qed.

Lemma values_at_zero_columns mask (I0 I1 : list nat) (V0 : list F) i d :
  zero_where mask I1 V0 -> mask !! d = Some true ->
  Forall (λ z, z = zero) (values_at (i, d) (zip (zip I0 I1) V0)).
Proof.
  intros Hzero Hmask. unfold values_at.
  apply Forall_fmap, Forall_forall. intros [[i' j'] v] Hin.
  apply list_elem_of_filter in Hin as [Hpos Hin]. cbn in Hpos.
  injection Hpos as -> ->.
  apply list_elem_of_lookup in Hin as [k Hk].
  apply lookup_zip_with_Some in Hk as (p & v' & Heq & Hp & Hv).
  apply lookup_zip_with_Some in Hp as (i0 & j0 & Hp & Hi & Hj).
  rewrite Hp in Heq. injection Heq as -> -> ->.
  cbn. specialize (Hzero k _ Hj Hmask). congruence.
Qed.

(** The appended part: one triplet [(b, b, 1)] per Dirichlet DOF. *)
Lemma values_at_diagonal (DB : list nat) i j :
  NoDup DB ->
  values_at (i, j) (zip (zip DB DB) (replicate (length DB) one))
  = if decide (i = j ∧ i ∈ DB) then [one] else [].
Proof.
  unfold values_at. induction 1 as [| b DB Hb _ IH].
  - cbn. rewrite decide_False; [done |].
    intros [_ Hin]. by apply elem_of_nil in Hin.
  - cbn [length replicate zip zip_with].
    destruct (decide ((b, b) = (i, j))) as [Hpos | Hpos].
    + rewrite filter_cons_True by done. simplify_eq.
      rewrite fmap_cons, IH. cbn [snd].
      rewrite decide_False by (by intros [_ ?]).
      rewrite decide_True; [done |]. split; [done | left].
    + rewrite filter_cons_False by done. rewrite IH.
      destruct (decide (i = j ∧ i ∈ DB)) as [[-> Hin] | Hno].
      * rewrite decide_True; [done |]. split; [done | by right].
      * rewrite decide_False; [done |].
        intros [-> [-> | Hin]%elem_of_cons]; [done | by destruct Hno].
Qed.

(** What [assemble] hands to [csr_matrix] when there are Dirichlet DOFs and
    the diagonal is kept: the element contributions, zeroed in the masked
    rows (and columns), followed by one [(b, b, 1)] per Dirichlet DOF. *)
Lemma assemble_entries (self : Operator) mu A :
  has_dirichlet (boundary_info self) = true ->
  dirichlet_clear_diag self = false ->
  assemble self mu = Ok A ->
  let mask := dirichlet_mask (boundary_info self) (dim (grid self)) in
  let DB := dirichlet_boundaries (boundary_info self) (dim (grid self)) in
  ∃ shape I0 I1 V0,
    A = csr_matrix
          {| coo_shape := shape;
             coo_entries := zip (zip I0 I1) V0
                            ++ zip (zip DB DB) (replicate (length DB) one) |}
    ∧ zero_where mask I0 V0
    ∧ (dirichlet_clear_columns self = true -> zero_where mask I1 V0).
Proof.
  intros Hdir Hdiag Hrun mask DB. unfold Cg.assemble in Hrun.
  apply and_then_ok in Hrun as (_ & _ & Hrun).
  apply and_then_ok in Hrun as (SF_GRAD & _ & Hrun).
  apply and_then_ok in Hrun as (SF_GRADS & _ & Hrun).
  apply and_then_ok in Hrun as (SF_INTS & _ & Hrun).
  apply and_then_ok in Hrun as ([[V R] C] & Hbt & Hrun).
  apply and_then_ok in Hrun as (A0 & Hcoo & Hrun).
  injection Hrun as <-.
  apply boundary_treatment_ok in Hbt as (V0 & -> & -> & -> & HlenV0 & Hrows & Hcols);
    [| done | done].
  fold mask DB in Hrows, Hcols |- *.
  unfold coo_matrix in Hcoo.
  destruct (decide _) as [[HlenR HlenC] |]; [| done].
  destruct (decide _); [| done].
  injection Hcoo as <-.
  rewrite !length_app, length_replicate in HlenR, HlenC.
  eexists _, _, _, V0. split_and!; [| done | done].
  f_equal. f_equal.
  rewrite zip_with_app by lia.
  rewrite zip_with_app; [done |].
  rewrite length_zip_with. lia.
Qed.

(** C9. With Dirichlet DOFs and [dirichlet_clear_diag] left [False], the
    row of every Dirichlet DOF [d] in the assembled matrix is the unit row:
    one on the diagonal and zero in every other column. With
    [dirichlet_clear_columns] the column of [d] is zero off the diagonal
    as well. *)
Theorem assemble_dirichlet_unit_rows (self : Operator) mu A d :
  let mask := dirichlet_mask (boundary_info self) (dim (grid self)) in
  let DB := dirichlet_boundaries (boundary_info self) (dim (grid self)) in
  has_dirichlet (boundary_info self) = true ->
  NoDup DB ->
  (∀ i, i ∈ DB ↔ mask !! i = Some true) ->
  dirichlet_clear_diag self = false ->
  assemble self mu = Ok A ->
  d ∈ DB ->
  (∀ j, get A d j = if decide (j = d) then one else zero)
  ∧ (dirichlet_clear_columns self = true -> ∀ i, i ≠ d -> get A i d = zero).
Proof.
  intros mask DB Hdir Hnodup Hmask Hdiag Hrun Hd.
  destruct (assemble_entries self mu A Hdir Hdiag Hrun)
    as (shape & I0 & I1 & V0 & -> & Hrows & Hcols).
  fold mask DB in Hrows, Hcols.
  assert (Hd' : mask !! d = Some true) by by apply Hmask.
  split.
  - intros j. rewrite get_csr_matrix. cbn [coo_entries].
    pose proof (values_at_perm (d, j) _ _ (sort_indices_perm
      (zip (zip I0 I1) V0 ++ zip (zip DB DB) (replicate (length DB) one))))
      as Hperm.
    unfold values_at in Hperm at 2. rewrite filter_app, fmap_app in Hperm.
    fold (values_at (d, j) (zip (zip I0 I1) V0)) in Hperm.
    fold (values_at (d, j) (zip (zip DB DB) (replicate (length DB) one))) in Hperm.
    rewrite values_at_diagonal in Hperm by done.
    pose proof (values_at_zero_rows mask I0 I1 V0 d j Hrows Hd') as Hzeros.
    destruct (decide (j = d)) as [-> | Hj].
    + rewrite decide_True in Hperm by done.
      rewrite (accumulate_one_among_zeros _ (values_at (d, d) (zip (zip I0 I1) V0)));
        [done | | done].
      etrans; [exact Hperm |]. symmetry. apply Permutation_cons_append.
    + rewrite decide_False, app_nil_r in Hperm by (intros [? _]; congruence).
      apply accumulate_zeros.
      by eapply Permutation_Forall; [symmetry; exact Hperm |].
  - intros Hclear i Hi. rewrite get_csr_matrix. cbn [coo_entries].
    pose proof (values_at_perm (i, d) _ _ (sort_indices_perm
      (zip (zip I0 I1) V0 ++ zip (zip DB DB) (replicate (length DB) one))))
      as Hperm.
    unfold values_at in Hperm at 2. rewrite filter_app, fmap_app in Hperm.
    fold (values_at (i, d) (zip (zip I0 I1) V0)) in Hperm.
    fold (values_at (i, d) (zip (zip DB DB) (replicate (length DB) one))) in Hperm.
    rewrite values_at_diagonal in Hperm by done.
    rewrite decide_False, app_nil_r in Hperm by (intros [? _]; congruence).
    apply accumulate_zeros.
    eapply Permutation_Forall; [symmetry; exact Hperm |].
    apply (values_at_zero_columns mask); [by apply Hcols | done].
Qed.

End cg_properties.

(** ** The Laplace operator on two intervals *)

Section cg_scenarios.
Import Numpy Py Scenario.

Lemma assemble_dirichlet_unit_rows_witness :
  let A := {| sp_shape := (3, 3);
              sp_entries := [(0, 0, 1%Q); (0, 1, 0%Q); (1, 0, 0%Q);
                             (1, 1, 16 # 4); (1, 2, 0%Q); (2, 1, 0%Q);
                             (2, 2, 1%Q)] |} in
  (∀ j, Cg.get 0%Q A 2 j = if decide (j = 2) then 1%Q else 0%Q)
  ∧ (Cg.dirichlet_clear_columns laplace = true ->
     ∀ i, i ≠ 2 -> Cg.get 0%Q A i 2 = 0%Q).
Proof.
  intros A.
  apply (assemble_dirichlet_unit_rows 0%Q 1%Q Qopp Qplus Qmult id
           eq_refl eq_refl eq_refl (λ es, reflexivity es) laplace tt A 2).
  - reflexivity.
  - cbn. by apply (bool_decide_unpack _).
  - intros i. cbn. split.
    + intros Hi. by repeat (apply elem_of_cons in Hi as [-> | Hi]; [done |]);
        apply elem_of_nil in Hi.
    + destruct i as [| [| [| i]]]; cbn; intros [=]; set_solver.
  - reflexivity.
  - reflexivity.
  - cbn. set_solver.
Defined.

End cg_scenarios.

(** * Further properties of [StationaryLinearDiscretization] *)

Section linear_further.
Import Numpy Py Linear.
Context {F : Type} `{Countable F}.
Variable zero : F.

Local Abbreviation solve := (Linear.solve zero).
Local Abbreviation Discretization := (@StationaryLinearDiscretization F).
Local Abbreviation ParameterValue := (gmap string (ndarray F)).
Local Abbreviation log_events self A mu :=
  (if disable_logging self then [] else [EvLog (issparse A) mu]).

(** A request for a matrix leaves at most its own event in the trace. *)
Lemma call_matrix_trace (self : Discretization) mu which tr (r : Result (Matrix F)) :
  call_matrix self mu which = (tr, r) ->
  tr = [] ∨ ∃ mu', tr = [EvMatrix which mu'].
Proof.
  unfold call_matrix, bind, lift, emit.
  destruct (dict_property self which) as [op | e]; [| intros [= <- _]; by left].
  destruct (map_parameter self mu which) as [mu' | e]; [| intros [= <- _]; by left].
  destruct (matrix op mu'); intros [= <- _]; right; by exists mu'.
Qed.

(** X1. When the request for the operator's matrix raises, [solve] raises
    the same exception at once: the matrix of [rhs] is never requested and
    no solver is called. *)
Theorem solve_operator_failure (self : Discretization) raw mu tr e :
  parse_parameter (parameter_type self) raw = Ok mu ->
  call_matrix self mu "operator" = (tr, Raise e) ->
  solve self raw = (tr, Raise e)
  ∧ Forall (λ ev, is_solver_event ev = false ∧ ¬ requests "rhs" ev) tr.
Proof.
  intros Hparse HA. split.
  - unfold Linear.solve. rewrite (bind_lift_ok _ mu) by done. by rewrite HA.
  - destruct (call_matrix_trace _ _ _ _ _ HA) as [-> | [mu' ->]];
      repeat constructor.
    intros [mu'' [=]].
Qed.

(** X2. When the operator's matrix has been assembled (with non-zero size)
    and the request for the matrix of [rhs] raises, [solve] raises the same
    exception and no solver is called. *)
Theorem solve_rhs_failure (self : Discretization) raw mu trA A trR e :
  parse_parameter (parameter_type self) raw = Ok mu ->
  call_matrix self mu "operator" = (trA, Ok A) ->
  size A ≠ 0 ->
  call_matrix self mu "rhs" = (trR, Raise e) ->
  solve self raw = (trA ++ log_events self A mu ++ trR, Raise e)
  ∧ Forall (λ ev, is_solver_event ev = false) (solve self raw).1.
Proof.
  intros Hparse HA Hsize HR.
  assert (Hrun : solve self raw = (trA ++ log_events self A mu ++ trR, Raise e)).
  { rewrite (solve_assembled zero self raw mu trA A) by done.
    rewrite bool_decide_eq_false_2 by done.
    rewrite bind_ok, HR. cbn [bind fst snd]. by rewrite <- app_assoc. }
  split; [done |]. rewrite Hrun. cbn [fst].
  rewrite !Forall_app. split_and!.
  - destruct (call_matrix_trace _ _ _ _ _ HA) as [-> | [mu' ->]];
      repeat constructor.
  - destruct (disable_logging self); repeat constructor.
  - destruct (call_matrix_trace _ _ _ _ _ HR) as [-> | [mu' ->]];
      repeat constructor.
Qed.

(** Squeezing keeps the number of elements. *)
Lemma array_size_squeeze (a : ndarray F) : array_size (squeeze a) = array_size a.
Proof.
  unfold array_size, squeeze. cbn [shape].
  induction (shape a) as [| n s IH]; [done |].
  destruct (decide (n = 1)) as [-> | Hn].
  - rewrite filter_cons_False by (intros ?; done). cbn [foldr]. lia.
  - rewrite filter_cons_True by done. cbn [foldr]. by rewrite IH.
Qed.

(** X3. The right-hand side that [solve] builds (lines 115-117) is never
    zero-dimensional; for a dense matrix of the [rhs] operator it has the
    entries and the number of elements of that matrix, and its shape is
    either [(1,)] or has no axis of extent one. *)
Theorem rhs_vector_invariants (R : Matrix F) :
  ndim (rhs_vector R) ≠ 0
  ∧ ∀ a, R = Dense a ->
      data (rhs_vector R) = data a
      ∧ array_size (rhs_vector R) = array_size a
      ∧ (shape (rhs_vector R) = [1] ∨ Forall (λ n, n ≠ 1) (shape (rhs_vector R))).
Proof.
  unfold rhs_vector. split.
  - case_bool_decide as Hnd; [done | done].
  - intros a ->. cbn [np_squeeze].
    case_bool_decide as Hnd.
    + unfold ndim in Hnd. apply nil_length_inv in Hnd.
      split_and!.
      * done.
      * rewrite <- (array_size_squeeze a).
        unfold array_size, newaxis. cbn [shape]. rewrite Hnd. done.
      * left. unfold newaxis. cbn [shape]. by rewrite Hnd.
    + split_and!.
      * done.
      * apply array_size_squeeze.
      * right. unfold squeeze. cbn [shape]. apply Forall_forall.
        intros n Hn. by apply list_elem_of_filter in Hn as [? _].
Qed.

(** A copy solves like its original: the wrapped function makes the same
    calls and gives the same result. *)
Lemma copy_solves_alike (self : Discretization) st mu :
  solve (copy self st).1 mu = solve self mu.
Proof. done. Qed.

(** X4. Switching the log line off ([disable_logging = True]) changes no
    result of [solve]; once the operator's matrix has been assembled, the
    calls made are the same with the one log event left out. *)
Theorem solve_logging_irrelevant (self : Discretization) raw :
  (solve (set_disable_logging true self) raw).2 = (solve self raw).2
  ∧ ∀ mu trA A,
      parse_parameter (parameter_type self) raw = Ok mu ->
      call_matrix self mu "operator" = (trA, Ok A) ->
      ∃ rest,
        (solve (set_disable_logging true self) raw).1 = trA ++ rest
        ∧ (solve (set_disable_logging false self) raw).1
          = trA ++ EvLog (issparse A) mu :: rest.
Proof.
  split.
  - unfold Linear.solve, call_matrix, dict_property, map_parameter,
      set_disable_logging, bind, lift, ret, emit.
    cbn [parameter_type operators parameter_maps disable_logging solver negb].
    destruct (parse_parameter _ raw) as [mu | e]; [| done].
    repeat (case_match; simplify_eq; try done).
  - intros mu trA A Hparse HA.
    rewrite (solve_assembled zero (set_disable_logging true self) raw mu trA A);
      [| done | done].
    rewrite (solve_assembled zero (set_disable_logging false self) raw mu trA A);
      [| done | done].
    cbn [disable_logging set_disable_logging solver].
    case_bool_decide.
    + exists []. by rewrite app_nil_r.
    + rewrite !bind_ok. cbn [fst].
      eexists. split; [by rewrite app_nil_r |].
      by rewrite <- app_assoc.
Qed.

End linear_further.

Section linear_further_scenarios.
Import Numpy Py Linear Scenario.

Local Abbreviation solve := (Linear.solve 0%Q).
Local Abbreviation no_parameter := (∅ : gmap string (ndarray Q)).

Lemma solve_operator_failure_witness :
  solve (system (failing_operator 3 3) ones3 None) no_parameter
  = ([EvMatrix "operator" no_parameter], Raise (ExternalError 1))
  ∧ Forall (λ ev, is_solver_event ev = false ∧ ¬ requests "rhs" ev)
           [EvMatrix "operator" no_parameter].
Proof.
  apply (solve_operator_failure 0%Q (system (failing_operator 3 3) ones3 None)
           no_parameter no_parameter).
  - reflexivity.
  - reflexivity.
Defined.

Lemma solve_rhs_failure_witness :
  let A := dense 3 3 [[1; 0; 0]; [0; 2; 0]; [0; 0; 3]]%Q in
  solve (system diag123 (failing_operator 3 1) None) no_parameter
  = ([EvMatrix "operator" no_parameter; EvLog false no_parameter;
      EvMatrix "rhs" no_parameter], Raise (ExternalError 1))
  ∧ Forall (λ ev, is_solver_event ev = false)
           (solve (system diag123 (failing_operator 3 1) None) no_parameter).1.
Proof.
  intros A.
  apply (solve_rhs_failure 0%Q (system diag123 (failing_operator 3 1) None)
           no_parameter no_parameter [EvMatrix "operator" no_parameter] A
           [EvMatrix "rhs" no_parameter]).
  - reflexivity.
  - reflexivity.
  - cbn. lia.
  - reflexivity.
Defined.

End linear_further_scenarios.

(** * Further properties of [DiffusionOperatorP1.assemble] *)

Section cg_further.
Import Numpy Py Cg.
Context {F Mu : Type}.
Variables (zero one : F) (opp : F -> F) (add mul : F -> F -> F).
Variable sort_indices : list (nat * nat * F) -> list (nat * nat * F).

Hypothesis add_zero_zero : add zero zero = zero.
Hypothesis sort_indices_perm : ∀ es, sort_indices es ≡ₚ es.

Local Abbreviation add_entry := (Cg.add_entry add).
Local Abbreviation csr_matrix := (Cg.csr_matrix add sort_indices).
Local Abbreviation get := (Cg.get zero).
Local Abbreviation zero_where := (Cg.zero_where zero).
Local Abbreviation boundary_treatment := (@Cg.boundary_treatment F Mu zero one).
Local Abbreviation assemble :=
  (@Cg.assemble F Mu zero one opp add mul sort_indices).
Local Abbreviation Operator := (@DiffusionOperatorP1 F Mu).

(** *** The grid dimension *)

(** X5. [assemble] works for line and triangle grids only: for a grid of
    any other dimension it raises [NotImplementedError] (lines 211-219),
    whatever the boundary information and the diffusion are. *)
Theorem assemble_not_implemented (self : Operator) mu mu' :
  map_parameter self mu None = Ok mu' ->
  dim (grid self) ≠ 1 ->
  dim (grid self) ≠ 2 ->
  assemble self mu = Raise NotImplementedError.
Proof.
  intros Hmu H1 H2. unfold Cg.assemble. rewrite Hmu. cbn [and_then].
  rewrite decide_False by done. by rewrite decide_False by done.
Qed.

(** *** The stored entries *)

Lemma add_entry_positions acc (e : nat * nat * F) :
  (add_entry acc e).*1
  = if decide (e.1 ∈ acc.*1) then acc.*1 else acc.*1 ++ [e.1].
Proof.
  induction acc as [| e' acc IH]; cbn [Cg.add_entry].
  - rewrite decide_False; [done |]. by intros ?%elem_of_nil.
  - destruct (decide (e'.1 = e.1)) as [Hsame | Hother].
    + rewrite decide_True; [done |]. rewrite fmap_cons, <- Hsame. left.
    + rewrite !fmap_cons, IH.
      destruct (decide (e.1 ∈ acc.*1)) as [Hin | Hout].
      * rewrite decide_True; [done |]. by right.
      * rewrite decide_False; [done |].
        intros [? | ?]%elem_of_cons; congruence.
Qed.

Lemma sum_duplicates_positions es acc :
  NoDup acc.*1 ->
  NoDup (foldl add_entry acc es).*1
  ∧ ∀ pos, pos ∈ (foldl add_entry acc es).*1 -> pos ∈ acc.*1 ∨ pos ∈ es.*1.
Proof.
  revert acc. induction es as [| e es IH]; intros acc Hacc; cbn [foldl].
  - split; [done | by left].
  - destruct (IH (add_entry acc e)) as [Hnodup Hsub].
    { rewrite add_entry_positions. case_decide; [done |].
      apply NoDup_app. split_and!; [done | | apply NoDup_singleton].
      intros pos Hpos ->%list_elem_of_singleton. done. }
    split; [done |]. intros pos Hpos.
    destruct (Hsub pos Hpos) as [Hin | Hin].
    + rewrite add_entry_positions in Hin. case_decide; [by left |].
      apply elem_of_app in Hin as [Hin | ->%list_elem_of_singleton];
        [by left | right; left].
    + right. rewrite fmap_cons. by right.
Qed.

(** X6. A matrix that [assemble] returns is square of the size of the
    grid's vertex count, every stored entry lies inside it, and no
    position is stored twice. *)
Theorem assemble_result_well_formed (self : Operator) mu A :
  assemble self mu = Ok A ->
  let n := size (grid self) (dim (grid self)) in
  sp_shape A = (n, n)
  ∧ Forall (λ e, e.1.1 < n ∧ e.1.2 < n) (sp_entries A)
  ∧ NoDup (sp_entries A).*1.
Proof.
  intros Hrun n. unfold Cg.assemble in Hrun.
  apply and_then_ok in Hrun as (_ & _ & Hrun).
  apply and_then_ok in Hrun as (SF_GRAD & _ & Hrun).
  apply and_then_ok in Hrun as (SF_GRADS & _ & Hrun).
  apply and_then_ok in Hrun as (SF_INTS & _ & Hrun).
  apply and_then_ok in Hrun as ([[V R] C] & _ & Hrun).
  apply and_then_ok in Hrun as (A0 & Hcoo & Hrun).
  injection Hrun as <-.
  unfold coo_matrix in Hcoo.
  destruct (decide _) as [[HlenR HlenC] |]; [| done].
  destruct (decide _) as [[HR HC] |]; [| done].
  injection Hcoo as <-. fold n in HR, HC.
  cbn [Cg.csr_matrix sp_shape sp_entries coo_shape coo_entries].
  destruct (sum_duplicates_positions (sort_indices (zip (zip R C) V)) [])
    as [Hnodup Hsub]; [constructor |].
  split_and!; [done | | done].
  apply Forall_forall. intros e He.
  destruct (Hsub e.1) as [Hin | Hin].
  { apply list_elem_of_fmap. by exists e. }
  { by apply elem_of_nil in Hin. }
  rewrite sort_indices_perm in Hin.
  apply list_elem_of_fmap in Hin as ([[i j] v] & -> & Hin). cbn [fst snd].
  apply elem_of_zip_l in Hin.
  split.
  - apply elem_of_zip_l in Hin. by eapply (proj1 (Forall_forall _ _) HR).
  - apply elem_of_zip_r in Hin. by eapply (proj1 (Forall_forall _ _) HC).
Qed.

(** *** Cleared diagonal *)

Lemma boundary_treatment_cleared (self : Operator) SF_INTS SF_I0 SF_I1 V R C :
  has_dirichlet (boundary_info self) = true ->
  dirichlet_clear_diag self = true ->
  boundary_treatment self SF_INTS SF_I0 SF_I1 = Ok (V, R, C) ->
  let mask := dirichlet_mask (boundary_info self) (dim (grid self)) in
  R = SF_I0 ∧ C = SF_I1
  ∧ zero_where mask SF_I0 V
  ∧ (dirichlet_clear_columns self = true -> zero_where mask SF_I1 V).
Proof.
  intros Hdir Hdiag Hrun mask. unfold Cg.boundary_treatment in Hrun.
  rewrite Hdir, Hdiag in Hrun. cbn [negb] in Hrun. fold mask in Hrun.
  apply and_then_ok in Hrun as (M0 & HM0 & Hrun).
  apply and_then_ok in Hrun as (V1 & HV1 & Hrun).
  apply and_then_ok in Hrun as (V2 & HV2 & Hrun).
  injection Hrun as <- <- <-.
  apply take_mask_ok in HM0 as [_ HM0].
  apply np_where_zero_ok in HV1 as (_ & _ & Hrows1 & _).
  assert (Hrows : zero_where mask SF_I0 V1).
  { intros k i Hi Hmask. apply Hrows1. by rewrite (HM0 k i). }
  destruct (dirichlet_clear_columns self).
  - apply and_then_ok in HV2 as (M1 & HM1 & HV2).
    apply take_mask_ok in HM1 as [_ HM1].
    apply np_where_zero_ok in HV2 as (_ & _ & Hcols2 & Hkeep).
    split_and!; [done | done | |].
    + intros k i Hi Hmask. apply Hkeep. by eapply Hrows.
    + intros _ k j Hj Hmask. apply Hcols2. by rewrite (HM1 k j).
  - injection HV2 as <-. done.
Qed.

(** X7. With [dirichlet_clear_diag] set, the row of every Dirichlet DOF in
    the assembled matrix is zero throughout, the diagonal included; with
    [dirichlet_clear_columns] set as well, so is its column. *)
Theorem assemble_cleared_rows (self : Operator) mu A d :
  has_dirichlet (boundary_info self) = true ->
  dirichlet_clear_diag self = true ->
  assemble self mu = Ok A ->
  dirichlet_mask (boundary_info self) (dim (grid self)) !! d = Some true ->
  (∀ j, get A d j = zero)
  ∧ (dirichlet_clear_columns self = true -> ∀ i, get A i d = zero).
Proof.
  intros Hdir Hdiag Hrun Hd. unfold Cg.assemble in Hrun.
  apply and_then_ok in Hrun as (_ & _ & Hrun).
  apply and_then_ok in Hrun as (SF_GRAD & _ & Hrun).
  apply and_then_ok in Hrun as (SF_GRADS & _ & Hrun).
  apply and_then_ok in Hrun as (SF_INTS & _ & Hrun).
  apply and_then_ok in Hrun as ([[V R] C] & Hbt & Hrun).
  apply and_then_ok in Hrun as (A0 & Hcoo & Hrun).
  injection Hrun as <-.
  apply boundary_treatment_cleared in Hbt as (-> & -> & Hrows & Hcols);
    [| done | done].
  unfold coo_matrix in Hcoo.
  destruct (decide _); [| done]. destruct (decide _); [| done].
  injection Hcoo as <-.
  split.
  - intros j. rewrite get_csr_matrix. cbn [coo_entries].
    apply accumulate_zeros; [done |].
    eapply Permutation_Forall.
    { symmetry. apply values_at_perm, sort_indices_perm. }
    by eapply values_at_zero_rows.
  - intros Hclear i. rewrite get_csr_matrix. cbn [coo_entries].
    apply accumulate_zeros; [done |].
    eapply Permutation_Forall.
    { symmetry. apply values_at_perm, sort_indices_perm. }
    eapply values_at_zero_columns; [by apply Hcols | done].
Qed.

(** *** Assembly succeeds on well-formed grids *)

Lemma length_concat_uniform {X} (l : list (list X)) c :
  Forall (λ b, length b = c) l -> length (concat l) = length l * c.
Proof.
  induction 1 as [| b l Hb _ IH]; [done |].
  cbn [concat]. rewrite length_app, IH, Hb. cbn [length]. lia.
Qed.

Lemma Forall_concat {X} (P : X -> Prop) (l : list (list X)) :
  Forall (Forall P) l -> Forall P (concat l).
Proof.
  induction 1 as [| b l Hb _ IH]; [constructor |].
  cbn [concat]. by apply Forall_app.
Qed.

Lemma length_einsum_ints (G : list (list (list F))) (w : list F) k :
  length G = length w ->
  Forall (λ Ge, length Ge = k) G ->
  length (einsum_ints_values zero add mul G w) = length G * (k * k).
Proof.
  intros Hlen HG. unfold einsum_ints_values.
  rewrite (length_concat_uniform _ (k * k)).
  - rewrite length_zip_with. lia.
  - clear Hlen. revert w. induction HG as [| Ge G HGe _ IH]; intros [| we w];
      cbn [zip_with]; try constructor; [| apply IH].
    rewrite (length_concat_uniform _ k).
    + by rewrite length_fmap, HGe.
    + apply Forall_fmap, Forall_forall. intros gp _. cbn.
      by rewrite length_fmap.
Qed.

Lemma einsum_grads_shape (JIT : list (list (list F))) (SF_GRAD : list (list F)) :
  length (einsum_grads_values zero add mul JIT SF_GRAD) = length JIT
  ∧ Forall (λ Ge, length Ge = length SF_GRAD)
           (einsum_grads_values zero add mul JIT SF_GRAD).
Proof.
  unfold einsum_grads_values. split; [by rewrite length_fmap |].
  apply Forall_fmap, Forall_forall. intros J _. cbn. by rewrite length_fmap.
Qed.

Lemma stretch_same {X} (xs : list X) : stretch (length xs) xs = xs.
Proof. by destruct xs as [| x [|]]. Qed.

Lemma repeat_ravel_shape (a : list (list nat)) k (P : nat -> Prop) :
  Forall (λ row, length row = k ∧ Forall P row) a ->
  length (repeat_ravel a k) = length a * (k * k)
  ∧ Forall P (repeat_ravel a k).
Proof.
  intros Ha. unfold repeat_ravel. split.
  - rewrite (length_concat_uniform _ (k * k)); [by rewrite length_fmap |].
    apply Forall_fmap. eapply Forall_impl; [exact Ha |].
    intros row [Hrow _]. cbn.
    rewrite (length_concat_uniform _ k).
    + by rewrite length_fmap, Hrow.
    + apply Forall_fmap, Forall_forall. intros i _. cbn. apply length_replicate.
  - apply Forall_concat, Forall_fmap. eapply Forall_impl; [exact Ha |].
    intros row [_ Hrow]. cbn. apply Forall_concat, Forall_fmap.
    eapply Forall_impl; [exact Hrow |]. intros i Hi. cbn.
    apply Forall_forall. by intros j ->%elem_of_replicate_inv.
Qed.

Lemma tile_ravel_shape (a : list (list nat)) k (P : nat -> Prop) :
  Forall (λ row, length row = k ∧ Forall P row) a ->
  length (tile_ravel a k) = length a * (k * k)
  ∧ Forall P (tile_ravel a k).
Proof.
  intros Ha. unfold tile_ravel. split.
  - rewrite (length_concat_uniform _ (k * k)); [by rewrite length_fmap |].
    apply Forall_fmap. eapply Forall_impl; [exact Ha |].
    intros row [Hrow _]. cbn.
    rewrite (length_concat_uniform _ k); [by rewrite length_replicate |].
    apply Forall_forall. by intros r ->%elem_of_replicate_inv.
  - apply Forall_concat, Forall_fmap. eapply Forall_impl; [exact Ha |].
    intros row [_ Hrow]. cbn. apply Forall_concat.
    apply Forall_forall. by intros r ->%elem_of_replicate_inv.
Qed.

Lemma take_mask_succeeds (mask : list bool) (I : list nat) :
  Forall (λ i, i < length mask) I ->
  ∃ M, take_mask mask I = Ok M ∧ length M = length I.
Proof.
  intros HI. unfold take_mask.
  destruct (mapM_is_Some_2 (λ i, mask !! i) I) as [M HM].
  { eapply Forall_impl; [exact HI |]. intros i Hi. cbn.
    by apply lookup_lt_is_Some_2. }
  rewrite HM. exists M. split; [done |].
  apply mapM_Some in HM. symmetry. by eapply Forall2_length.
Qed.

Lemma boundary_treatment_succeeds (self : Operator) SF_INTS SF_I0 SF_I1 n :
  length SF_I0 = length SF_INTS ->
  length SF_I1 = length SF_INTS ->
  Forall (λ i, i < n) SF_I0 ->
  Forall (λ i, i < n) SF_I1 ->
  (has_dirichlet (boundary_info self) = true ->
   n ≤ length (dirichlet_mask (boundary_info self) (dim (grid self)))
   ∧ Forall (λ i, i < n)
            (dirichlet_boundaries (boundary_info self) (dim (grid self)))) ->
  ∃ V R C, boundary_treatment self SF_INTS SF_I0 SF_I1 = Ok (V, R, C)
           ∧ length R = length V ∧ length C = length V
           ∧ Forall (λ i, i < n) R ∧ Forall (λ i, i < n) C.
Proof.
  intros Hlen0 Hlen1 HI0 HI1 Hbi. unfold Cg.boundary_treatment.
  destruct (has_dirichlet (boundary_info self)).
  2: { eexists _, _, _. split; [done |]. by split_and!. }
  destruct Hbi as [Hmask HDB]; [done |].
  destruct (take_mask_succeeds
              (dirichlet_mask (boundary_info self) (dim (grid self))) SF_I0)
    as (M0 & -> & HlenM0).
  { eapply Forall_impl; [exact HI0 |]. intros i Hi. cbn in *. lia. }
  cbn [and_then]. unfold np_where_zero at 1.
  rewrite decide_True by lia. cbn [and_then].
  set (V1 := zip_with _ M0 SF_INTS).
  assert (HlenV1 : length V1 = length SF_INTS).
  { unfold V1. rewrite length_zip_with. lia. }
  assert (∃ V2, (if dirichlet_clear_columns self
                 then and_then
                        (take_mask (dirichlet_mask (boundary_info self)
                                      (dim (grid self))) SF_I1)
                        (λ M1, np_where_zero zero M1 V1)
                 else Ok V1) = Ok V2 ∧ length V2 = length SF_INTS)
    as (V2 & -> & HlenV2).
  { destruct (dirichlet_clear_columns self); [| by eauto].
    destruct (take_mask_succeeds
                (dirichlet_mask (boundary_info self) (dim (grid self))) SF_I1)
      as (M1 & -> & HlenM1).
    { eapply Forall_impl; [exact HI1 |]. intros i Hi. cbn in *. lia. }
    cbn [and_then]. unfold np_where_zero. rewrite decide_True by lia.
    eexists. split; [done |]. rewrite length_zip_with. lia. }
  cbn [and_then]. destruct (dirichlet_clear_diag self); cbn [negb].
  - eexists _, _, _. split; [done |].
    split_and!; [lia | lia | done | done].
  - eexists _, _, _. split; [done |].
    rewrite !length_app, length_replicate.
    split_and!; [lia | lia | by apply Forall_app | by apply Forall_app].
Qed.

(** X8. [assemble] returns a matrix, and raises nothing, whenever the
    arrays of the grid and the boundary information fit together
    ([well_formed]: among others every Jacobian has [dim] rows and [dim]
    columns, so that [np.einsum] accepts the shapes) and the parameter and
    the diffusion function can be evaluated. *)
Theorem assemble_succeeds (self : Operator) mu mu' :
  well_formed self ->
  map_parameter self mu None = Ok mu' ->
  diffusion_evaluates self mu ->
  ∃ A, assemble self mu = Ok A.
Proof.
  intros (Hdim & Hsub & HJIT & HJ & Hvol & Hbi) Hmu Hdiff.
  unfold Cg.assemble. rewrite Hmu. cbn [and_then].
  set (g := grid self) in *.
  set (sub := subentities g 0 (dim g)) in *.
  assert (∃ SF_GRAD,
            (if decide (dim g = 2)
             then Ok [[opp one; opp one]; [one; zero]; [zero; one]]
             else if decide (dim g = 1) then Ok [[opp one]; [one]]
                  else Raise NotImplementedError) = Ok SF_GRAD
            ∧ length SF_GRAD = dim g + 1
            ∧ Forall (λ gp, length gp = dim g) SF_GRAD)
    as (SF_GRAD & -> & HSF & Hcols).
  { destruct Hdim as [H1 | H2].
    - rewrite decide_False by lia. rewrite decide_True by done.
      eexists. split; [done |]. rewrite H1. split; [done |].
      by repeat constructor.
    - rewrite decide_True by done. eexists. split; [done |]. rewrite H2.
      split; [done |]. by repeat constructor. }
  cbn [and_then]. unfold Cg.einsum_grads. rewrite decide_True.
  2: { eapply Forall_impl; [exact HJ |]. intros J [_ HJi]. cbn.
       eapply Forall_impl; [exact HJi |]. intros Ji HlenJi. cbn.
       eapply Forall_impl; [exact Hcols |]. intros gp Hgp. cbn.
       left. by rewrite HlenJi, Hgp. }
  cbn [and_then].
  destruct (einsum_grads_shape (jacobian_inverse_transposed g 0) SF_GRAD)
    as [HlenG HG].
  set (G := einsum_grads_values zero add mul
              (jacobian_inverse_transposed g 0) SF_GRAD) in *.
  assert (∃ SF_INTS,
            match diffusion_function self with
            | Some f =>
                and_then (map_parameter self mu (Some "diffusion")) (λ mu_d,
                and_then (f (centers g 0) mu_d) (λ D,
                einsum_ints_weighted zero add mul G (volumes g 0) D))
            | None => einsum_ints zero add mul G (volumes g 0)
            end = Ok SF_INTS
            ∧ length SF_INTS = length sub * ((dim g + 1) * (dim g + 1)))
    as (SF_INTS & -> & HlenINTS).
  { unfold diffusion_evaluates in Hdiff.
    destruct (diffusion_function self) as [f |].
    - destruct Hdiff as (mu_d & D & -> & HD & HlenD). fold g in HD.
      fold g sub in HlenD.
      cbn [and_then]. rewrite HD. cbn [and_then].
      unfold Cg.einsum_ints_weighted.
      assert (Hn : (if decide (length G = 1)
                    then if decide (length (volumes g 0) = 1)
                         then length D else length (volumes g 0)
                    else length G) = length G).
      { repeat case_decide; lia. }
      rewrite Hn. rewrite decide_True by (split_and!; left; lia).
      eexists. split; [done |].
      rewrite stretch_same.
      replace (length G) with (length (volumes g 0)) at 1 by lia.
      replace (length G) with (length D) at 1 by lia.
      rewrite !stretch_same.
      rewrite (length_einsum_ints _ _ (dim g + 1)).
      + by rewrite HlenG, HJIT.
      + rewrite length_zip_with, HlenG. lia.
      + by rewrite <- HSF.
    - unfold Cg.einsum_ints. rewrite decide_True by (left; lia).
      eexists. split; [done |].
      replace (length (volumes g 0)) with (length G) at 1 by lia.
      replace (length G) with (length (volumes g 0)) at 2 by lia.
      rewrite !stretch_same.
      rewrite (length_einsum_ints _ _ (dim g + 1)).
      + by rewrite HlenG, HJIT.
      + rewrite HlenG. lia.
      + by rewrite <- HSF. }
  cbn [and_then].
  destruct (repeat_ravel_shape sub (dim g + 1) (λ i, i < size g (dim g)) Hsub)
    as [HlenI0 HI0].
  destruct (tile_ravel_shape sub (dim g + 1) (λ i, i < size g (dim g)) Hsub)
    as [HlenI1 HI1].
  destruct (boundary_treatment_succeeds self
              (match diffusion_constant self with
               | Some c => (λ x, mul x c) <$> SF_INTS
               | None => SF_INTS
               end)
              (repeat_ravel sub (dim g + 1)) (tile_ravel sub (dim g + 1))
              (size g (dim g)))
    as (V & R & C & -> & HlenR & HlenC & HR & HC); [| | done | done | done |].
  { destruct (diffusion_constant self); rewrite ?length_fmap; lia. }
  { destruct (diffusion_constant self); rewrite ?length_fmap; lia. }
  cbn [and_then]. unfold coo_matrix.
  rewrite decide_True by done. rewrite decide_True by done.
  cbn [and_then]. by eexists.
Qed.

(** *** What the boundary treatment leaves alone *)

Lemma np_where_zero_keeps (cond : list bool) (xs ys : list F) k :
  Cg.np_where_zero zero cond xs = Ok ys ->
  (cond !! k = Some false -> ys !! k = xs !! k)
  ∧ (ys !! k = xs !! k ∨ ys !! k = Some zero).
Proof.
  unfold Cg.np_where_zero. destruct (decide _) as [Hlen |]; [| done].
  intros [= <-]. rewrite lookup_zip_with.
  destruct (cond !! k) as [[|] |] eqn:Hc; cbn.
  - split; [done |]. destruct (xs !! k); cbn; [by right | by left].
  - split; [by destruct (xs !! k) |]. left. by destruct (xs !! k).
  - apply lookup_ge_None in Hc. rewrite Hlen in Hc.
    apply lookup_ge_None in Hc. rewrite Hc. by split; [| left].
Qed.

(** X14. The boundary treatment of [DiffusionOperatorP1.assemble] passes
    the index arrays on unchanged (followed by the Dirichlet DOFs when a
    diagonal of ones is appended); every value is either kept or replaced
    by zero, and the value of a triplet whose row is not a Dirichlet DOF
    (nor, with [dirichlet_clear_columns], its column) is kept. *)
Theorem boundary_treatment_frame (self : Operator) SF_INTS SF_I0 SF_I1 V R C :
  boundary_treatment self SF_INTS SF_I0 SF_I1 = Ok (V, R, C) ->
  let bi := boundary_info self in
  let mask := dirichlet_mask bi (dim (grid self)) in
  let DB := dirichlet_boundaries bi (dim (grid self)) in
  let appended := has_dirichlet bi && negb (dirichlet_clear_diag self) in
  ∃ V0,
    V = V0 ++ (if appended then replicate (length DB) one else [])
    ∧ R = SF_I0 ++ (if appended then DB else [])
    ∧ C = SF_I1 ++ (if appended then DB else [])
    ∧ length V0 = length SF_INTS
    ∧ (∀ k, V0 !! k = SF_INTS !! k ∨ V0 !! k = Some zero)
    ∧ ∀ k i j,
        SF_I0 !! k = Some i -> SF_I1 !! k = Some j ->
        mask !! i = Some false ->
        (dirichlet_clear_columns self = false ∨ mask !! j = Some false) ->
        V0 !! k = SF_INTS !! k.
Proof.
  intros Hrun bi mask DB appended. unfold Cg.boundary_treatment in Hrun.
  fold bi mask DB in Hrun. subst appended.
  destruct (has_dirichlet bi); cbn [andb].
  2: { injection Hrun as <- <- <-. exists SF_INTS.
       rewrite !app_nil_r. split_and!; try done. by left. }
  apply and_then_ok in Hrun as (M0 & HM0 & Hrun).
  apply and_then_ok in Hrun as (V1 & HV1 & Hrun).
  apply and_then_ok in Hrun as (V2 & HV2 & Hrun).
  apply take_mask_ok in HM0 as [HlenM0 HM0].
  pose proof (np_where_zero_ok _ _ _ _ HV1) as (_ & HlenV1 & _ & _).
  assert (∃ V0, (V, R, C)
                = (V0 ++ (if negb (dirichlet_clear_diag self)
                          then replicate (length DB) one else []),
                   SF_I0 ++ (if negb (dirichlet_clear_diag self) then DB else []),
                   SF_I1 ++ (if negb (dirichlet_clear_diag self) then DB else []))
                ∧ V0 = V2) as (V0 & Heq & ->).
  { exists V2. destruct (dirichlet_clear_diag self); cbn [negb] in *;
      injection Hrun as <- <- <-; by rewrite ?app_nil_r. }
  injection Heq as -> -> ->. exists V2.
  destruct (dirichlet_clear_columns self) eqn:Hcols.
  - apply and_then_ok in HV2 as (M1 & HM1 & HV2).
    apply take_mask_ok in HM1 as [HlenM1 HM1].
    pose proof (np_where_zero_ok _ _ _ _ HV2) as (_ & HlenV2 & _ & _).
    split_and!; [done | done | done | lia | |].
    + intros k.
      destruct (np_where_zero_keeps _ _ _ k HV2) as [_ [-> | ->]]; [| by right].
      by destruct (np_where_zero_keeps _ _ _ k HV1) as [_ [-> | ->]];
        [left | right].
    + intros k i j Hi Hj Hmi [? | Hmj]; [done |].
      rewrite (proj1 (np_where_zero_keeps _ _ _ k HV2))
        by (by rewrite (HM1 k j)).
      apply (np_where_zero_keeps _ _ _ k HV1). by rewrite (HM0 k i).
  - injection HV2 as <-.
    split_and!; [done | done | done | lia | |].
    + intros k.
      by destruct (np_where_zero_keeps _ _ _ k HV1) as [_ [-> | ->]];
        [left | right].
    + intros k i j Hi Hj Hmi _.
      apply (np_where_zero_keeps _ _ _ k HV1). by rewrite (HM0 k i).
Qed.

End cg_further.

Section cg_further_scenarios.
Import Numpy Py Scenario.

Lemma assemble_not_implemented_witness :
  assemble_exact laplace_3d tt = Raise NotImplementedError.
Proof.
  apply (assemble_not_implemented 0%Q 1%Q Qopp Qplus Qmult id laplace_3d tt tt).
  - reflexivity.
  - cbn. lia.
  - cbn. lia.
Defined.

Lemma assemble_result_well_formed_witness :
  let A := {| sp_shape := (3, 3);
              sp_entries := [(0, 0, 1%Q); (0, 1, 0%Q); (1, 0, 0%Q);
                             (1, 1, 16 # 4); (1, 2, 0%Q); (2, 1, 0%Q);
                             (2, 2, 1%Q)] |} in
  sp_shape A = (3, 3)
  ∧ Forall (λ e, e.1.1 < 3 ∧ e.1.2 < 3) (sp_entries A)
  ∧ NoDup (sp_entries A).*1.
Proof.
  intros A.
  apply (assemble_result_well_formed 0%Q 1%Q Qopp Qplus Qmult id
           (λ es, reflexivity es) laplace tt A).
  reflexivity.
Defined.

Lemma assemble_cleared_rows_witness :
  let A := {| sp_shape := (3, 3);
              sp_entries := [(0, 0, 0%Q); (0, 1, 0%Q); (1, 0, 0%Q);
                             (1, 1, 16 # 4); (1, 2, 0%Q); (2, 1, 0%Q);
                             (2, 2, 0%Q)] |} in
  (∀ j, Cg.get 0%Q A 0 j = 0%Q)
  ∧ (Cg.dirichlet_clear_columns laplace_cleared = true ->
     ∀ i, Cg.get 0%Q A i 0 = 0%Q).
Proof.
  intros A.
  apply (assemble_cleared_rows 0%Q 1%Q Qopp Qplus Qmult id
           eq_refl (λ es, reflexivity es) laplace_cleared tt A 0).
  - reflexivity.
  - reflexivity.
  - reflexivity.
  - reflexivity.
Defined.

Lemma assemble_succeeds_witness :
  ∃ A, assemble_exact laplace tt = Ok A.
Proof.
  apply (assemble_succeeds 0%Q 1%Q Qopp Qplus Qmult id laplace tt tt).
  - unfold Cg.well_formed. cbn. split_and!.
    + by left.
    + repeat constructor.
    + reflexivity.
    + repeat constructor.
    + reflexivity.
    + intros _. rewrite decide_False by done.
      split; [lia | repeat constructor; lia].
  - reflexivity.
  - exact I.
Defined.

Lemma boundary_treatment_frame_witness :
  let SF_INTS := [4; -4; -4; 4; 4; -4; -4; 4]%Q in
  let SF_I0 := [0; 0; 1; 1; 1; 1; 2; 2] in
  let SF_I1 := [0; 1; 0; 1; 1; 2; 1; 2] in
  ∃ V0,
    [0; 0; 0; 4; 4; 0; 0; 0; 1; 1]%Q = V0 ++ replicate 2 1%Q
    ∧ [0; 0; 1; 1; 1; 1; 2; 2; 0; 2] = SF_I0 ++ [0; 2]
    ∧ [0; 1; 0; 1; 1; 2; 1; 2; 0; 2] = SF_I1 ++ [0; 2]
    ∧ length V0 = 8
    ∧ (∀ k, V0 !! k = SF_INTS !! k ∨ V0 !! k = Some 0%Q)
    ∧ ∀ k i j,
        SF_I0 !! k = Some i -> SF_I1 !! k = Some j ->
        [true; false; true] !! i = Some false ->
        (true = false ∨ [true; false; true] !! j = Some false) ->
        V0 !! k = SF_INTS !! k.
Proof.
  intros SF_INTS SF_I0 SF_I1.
  apply (boundary_treatment_frame 0%Q 1%Q laplace SF_INTS SF_I0 SF_I1).
  reflexivity.
Defined.

End cg_further_scenarios.

(** * Symmetry of the diffusion matrix *)

(** Where addition and multiplication are commutative (no associativity
    is asked for, so this covers IEEE doubles) the matrix that
    [DiffusionOperatorP1] assembles for a conforming grid is symmetric,
    unless Dirichlet rows are cleared and the columns are not. *)
Section cg_symmetry.
Import Numpy Py Cg.
Context {F Mu : Type}.
Variables (zero one : F) (opp : F -> F) (add mul : F -> F -> F).
Variable sort_indices : list (nat * nat * F) -> list (nat * nat * F).

Hypothesis add_comm : ∀ x y, add x y = add y x.
Hypothesis mul_comm : ∀ x y, mul x y = mul y x.
Hypothesis sort_indices_perm : ∀ es, sort_indices es ≡ₚ es.

Local Abbreviation csr_matrix := (Cg.csr_matrix add sort_indices).
Local Abbreviation get := (Cg.get zero).
Local Abbreviation accumulate := (Cg.accumulate add).
Local Abbreviation dot := (Cg.dot zero add mul).
Local Abbreviation einsum_ints_values := (Cg.einsum_ints_values zero add mul).
Local Abbreviation einsum_grads_values :=
  (Cg.einsum_grads_values zero add mul).
Local Abbreviation boundary_treatment := (@Cg.boundary_treatment F Mu zero one).
Local Abbreviation assemble :=
  (@Cg.assemble F Mu zero one opp add mul sort_indices).
Local Abbreviation Operator := (@DiffusionOperatorP1 F Mu).

(** A triplet with row and column exchanged. *)
Local Abbreviation transposed :=
  (prod_map prod_swap id : nat * nat * F -> nat * nat * F).

(** At most two summands: their order does not matter. *)
Lemma accumulate_perm vs vs' :
  length vs ≤ 2 -> vs ≡ₚ vs' -> accumulate None vs = accumulate None vs'.
Proof.
  intros Hlen Hperm. destruct vs as [| a [| b [| c vs]]]; cbn in Hlen; [| | | lia].
  - by apply Permutation_nil in Hperm as ->.
  - by apply Permutation_length_1_inv in Hperm as ->.
  - apply Permutation_length_2_inv in Hperm as [-> | ->]; cbn; [done |].
    by rewrite add_comm.
Qed.

Lemma dot_comm xs ys : dot xs ys = dot ys xs.
Proof.
  unfold Cg.dot. f_equal. revert ys.
  induction xs as [| x xs IH]; intros [| y ys]; cbn; [done .. |].
  by rewrite mul_comm, IH.
Qed.

Lemma values_at_transposed i j (es : list (nat * nat * F)) :
  values_at (j, i) (transposed <$> es) = values_at (i, j) es.
Proof.
  unfold values_at. induction es as [| [[a b] v] es IH]; [done |].
  rewrite fmap_cons, !filter_cons. cbn.
  destruct (decide ((b, a) = (j, i))), (decide ((a, b) = (i, j)));
    simplify_eq; cbn; by rewrite ?IH.
Qed.

(** The head of the left list is found in the right list. *)
Lemma Permutation_pick {A} (x : A) l k k1 k2 :
  k = k1 ++ x :: k2 -> l ≡ₚ k1 ++ k2 -> x :: l ≡ₚ k.
Proof. intros -> Hl. by apply Permutation_cons_app. Qed.

Local Ltac pick_triplet :=
  first [ apply perm_skip
        | eapply (Permutation_pick _ _ _ [_]); [reflexivity |]
        | eapply (Permutation_pick _ _ _ [_; _]); [reflexivity |]
        | eapply (Permutation_pick _ _ _ [_; _; _]); [reflexivity |]
        | eapply (Permutation_pick _ _ _ [_; _; _; _]); [reflexivity |] ];
  cbn [app].

Lemma base_triplets_symmetric (sc : F -> F) k (sub : list (list nat))
    (G : list (list (list F))) (w : list F) :
  k = 2 ∨ k = 3 ->
  Forall (λ row, length row = k) sub ->
  Forall (λ Ge, length Ge = k) G ->
  let es := zip (zip (repeat_ravel sub k) (tile_ravel sub k))
                (sc <$> einsum_ints_values G w) in
  transposed <$> es ≡ₚ es.
Proof.
  intros Hk Hsub. revert G w.
  induction Hsub as [| row sub Hrow Hsub IH]; intros G w HG; [done |].
  destruct HG as [| Ge G HGe HG].
  { intros es. subst es. unfold Cg.einsum_ints_values.
    cbn [zip_with concat fmap list_fmap].
    by rewrite zip_with_nil_r. }
  destruct w as [| we w].
  { intros es. subst es. unfold Cg.einsum_ints_values.
    cbn [zip_with concat fmap list_fmap].
    by rewrite zip_with_nil_r. }
  specialize (IH G w HG). cbn zeta in IH.
  unfold Cg.repeat_ravel, Cg.tile_ravel, Cg.einsum_ints_values in *.
  destruct Hk as [-> | ->].
  - destruct row as [| a [| b [|]]]; try done.
    destruct Ge as [| g1 [| g2 [|]]]; try done.
    cbn [zip_with concat fmap list_fmap replicate app] in IH |- *.
    cbn [prod_map prod_swap id fst snd].
    rewrite (dot_comm g2 g1).
    repeat pick_triplet. exact IH.
  - destruct row as [| a [| b [| c [|]]]]; try done.
    destruct Ge as [| g1 [| g2 [| g3 [|]]]]; try done.
    cbn [zip_with concat fmap list_fmap replicate app] in IH |- *.
    cbn [prod_map prod_swap id fst snd].
    rewrite (dot_comm g2 g1), (dot_comm g3 g1), (dot_comm g3 g2).
    repeat pick_triplet. exact IH.
Qed.

Lemma take_mask_fmap mask I M :
  take_mask mask I = Ok M -> M = (λ i, default false (mask !! i)) <$> I.
Proof.
  unfold take_mask, of_option. destruct (mapM _ I) as [M' |] eqn:HM; [| done].
  intros [= <-]. apply mapM_Some in HM.
  induction HM as [| i m I M' Hm _ IH]; [done |].
  by rewrite fmap_cons, Hm, <- IH.
Qed.

Lemma zip_where (g : nat * nat -> bool) (Is : list (nat * nat)) (V : list F) :
  zip Is (zip_with (λ (c : bool) x, if c then zero else x) (g <$> Is) V)
  = (λ e, (e.1, if g e.1 then zero else e.2)) <$> zip Is V.
Proof.
  revert V. induction Is as [| p Is IH]; intros [| v V]; cbn; [done .. |].
  by rewrite IH.
Qed.

Lemma transposed_diagonal (DB : list nat) (vs : list F) :
  transposed <$> zip (zip DB DB) vs = zip (zip DB DB) vs.
Proof.
  revert vs. induction DB as [| d DB IH]; intros [| v vs]; cbn; [done .. |].
  by rewrite IH.
Qed.

(** The triplets that leave the boundary treatment are, up to their
    order, their own transposes. *)
Lemma boundary_treatment_symmetric (self : Operator) INTS I0 I1 V R C :
  length I0 = length I1 ->
  (has_dirichlet (boundary_info self) = true ->
   dirichlet_clear_columns self = true) ->
  transposed <$> zip (zip I0 I1) INTS ≡ₚ zip (zip I0 I1) INTS ->
  boundary_treatment self INTS I0 I1 = Ok (V, R, C) ->
  transposed <$> zip (zip R C) V ≡ₚ zip (zip R C) V.
Proof.
  intros Hlen Hcols Hbase Hrun. unfold Cg.boundary_treatment in Hrun.
  destruct (has_dirichlet _); [| by injection Hrun as <- <- <-].
  rewrite Hcols in Hrun by done.
  set (mask := dirichlet_mask _ _) in Hrun.
  set (m := λ i, default false (mask !! i)).
  apply and_then_ok in Hrun as (M0 & HM0 & Hrun).
  apply and_then_ok in Hrun as (V1 & HV1 & Hrun).
  apply and_then_ok in Hrun as (V2 & HV2 & Hrun).
  apply and_then_ok in HV2 as (M1 & HM1 & HV2).
  apply take_mask_fmap in HM0 as ->. apply take_mask_fmap in HM1 as ->.
  fold m in HV1, HV2.
  unfold Cg.np_where_zero in HV1, HV2.
  destruct (decide _) as [HlenV |] in HV1; [| done]. injection HV1 as <-.
  destruct (decide _) as [HlenV1 |] in HV2; [| done]. injection HV2 as <-.
  rewrite length_fmap in HlenV.
  assert (Hmasked :
    transposed <$> zip (zip I0 I1)
      (zip_with (λ (c : bool) x, if c then zero else x) (m <$> I1)
         (zip_with (λ (c : bool) x, if c then zero else x) (m <$> I0) INTS))
    ≡ₚ zip (zip I0 I1)
         (zip_with (λ (c : bool) x, if c then zero else x) (m <$> I1)
            (zip_with (λ (c : bool) x, if c then zero else x) (m <$> I0) INTS))).
  { replace (m <$> I1) with ((m ∘ snd) <$> zip I0 I1)
      by (rewrite list_fmap_compose, snd_zip; [done | lia]).
    rewrite zip_where.
    replace (m <$> I0) with ((m ∘ fst) <$> zip I0 I1)
      by (rewrite list_fmap_compose, fst_zip; [done | lia]).
    rewrite zip_where.
    etrans; [| by apply fmap_Permutation, fmap_Permutation, Hbase].
    rewrite <- !list_fmap_compose.
    match goal with |- ?l ≡ₚ ?r => assert (l = r) as ->; [| done] end.
    apply list_fmap_ext. intros _ [[i j] v] _. cbn.
    by destruct (m i), (m j). }
  destruct (dirichlet_clear_diag self); cbn [negb] in Hrun;
    injection Hrun as <- <- <-; [done |].
  rewrite !zip_with_app, fmap_app, transposed_diagonal, Hmasked; [done | |].
  - rewrite length_zip_with, !length_zip_with, !length_fmap. lia.
  - done.
Qed.

(** *** How many triplets a position receives *)

Lemma length_filter_zip (pos : nat * nat) (Ps : list (nat * nat)) (V : list F) :
  length (filter (λ e : nat * nat * F, e.1 = pos) (zip Ps V))
  ≤ length (filter (λ p, p = pos) Ps).
Proof.
  revert V. induction Ps as [| p Ps IH]; intros [| v V]; cbn [zip_with];
    [done | done | apply Nat.le_0_l |].
  rewrite !filter_cons. cbn [fst]. specialize (IH V).
  destruct (decide (p = pos)); cbn [length]; lia.
Qed.

Lemma filter_diagonal i j (t : list nat) :
  i ≠ j -> filter (λ p, p = (i, j)) (zip t t) = [].
Proof.
  intros Hij. induction t as [| d t IH]; [done |].
  cbn [zip_with]. rewrite filter_cons, IH.
  destruct (decide ((d, d) = (i, j))); [congruence | done].
Qed.

(** Off the diagonal, an element whose vertices are distinct gives a
    position one triplet at most, and none unless both vertices are its
    own. *)
Lemma positions_per_element k (sub : list (list nat)) i j :
  k = 2 ∨ k = 3 ->
  i ≠ j ->
  Forall (λ row, length row = k ∧ NoDup row) sub ->
  length (filter (λ p, p = (i, j)) (zip (repeat_ravel sub k) (tile_ravel sub k)))
  ≤ length (filter (λ row, i ∈ row ∧ j ∈ row) sub).
Proof.
  intros Hk Hij Hsub.
  induction Hsub as [| row sub [Hrow Hnodup] _ IH]; [done |].
  unfold Cg.repeat_ravel, Cg.tile_ravel in *.
  rewrite (filter_cons _ row).
  destruct Hk as [-> | ->].
  - destruct row as [| a [| b [|]]]; try done.
    apply NoDup_cons in Hnodup as [Hab _].
    assert (a ≠ b) by (intros ->; apply Hab; constructor).
    cbn [zip_with concat fmap list_fmap replicate app] in IH |- *.
    destruct (decide (i ∈ [a; b] ∧ j ∈ [a; b])) as [| Hout].
    + rewrite !filter_cons.
      repeat (case_decide; simplify_eq); cbn [length]; lia.
    + rewrite !filter_cons.
      repeat (case_decide; simplify_eq); cbn [length]; try lia;
        destruct Hout; split; repeat constructor.
  - destruct row as [| a [| b [| c [|]]]]; try done.
    apply NoDup_cons in Hnodup as [Ha Hnodup].
    apply NoDup_cons in Hnodup as [Hb _].
    assert (a ≠ b) by (intros ->; apply Ha; constructor).
    assert (a ≠ c) by (intros ->; apply Ha; repeat constructor).
    assert (b ≠ c) by (intros ->; apply Hb; constructor).
    cbn [zip_with concat fmap list_fmap replicate app] in IH |- *.
    destruct (decide (i ∈ [a; b; c] ∧ j ∈ [a; b; c])) as [| Hout].
    + rewrite !filter_cons.
      repeat (case_decide; simplify_eq); cbn [length]; lia.
    + rewrite !filter_cons.
      repeat (case_decide; simplify_eq); cbn [length]; try lia;
        destruct Hout; split; repeat constructor.
Qed.

Lemma boundary_treatment_indices (self : Operator) INTS I0 I1 V R C :
  boundary_treatment self INTS I0 I1 = Ok (V, R, C) ->
  ∃ t, R = I0 ++ t ∧ C = I1 ++ t.
Proof.
  intros Hrun. unfold Cg.boundary_treatment in Hrun.
  destruct (has_dirichlet _).
  2: { injection Hrun as <- <- <-. exists []. by rewrite !app_nil_r. }
  apply and_then_ok in Hrun as (M0 & _ & Hrun).
  apply and_then_ok in Hrun as (V1 & _ & Hrun).
  apply and_then_ok in Hrun as (V2 & _ & Hrun).
  destruct (dirichlet_clear_diag self); cbn [negb] in Hrun;
    injection Hrun as <- <- <-; [| by eexists].
  exists []. by rewrite !app_nil_r.
Qed.

Lemma stretch_Forall {X} (P : X -> Prop) n (xs : list X) :
  Forall P xs -> Forall P (stretch n xs).
Proof.
  intros Hxs. destruct xs as [| x [|]]; [done | | done]. cbn.
  apply Forall_replicate. by apply Forall_inv in Hxs.
Qed.

(** X15. Where addition and multiplication are commutative, the matrix
    that [DiffusionOperatorP1.assemble] returns is symmetric, provided the
    grid is conforming (every element lists [dim + 1] distinct vertices,
    and two distinct vertices belong together to two elements at most) and
    Dirichlet columns are cleared whenever Dirichlet rows are: the local
    products of gradients are symmetric, the boundary treatment then
    treats rows and columns alike, and no entry off the diagonal is a sum
    of more than two values. *)
Theorem assemble_symmetric (self : Operator) mu A :
  let g := grid self in
  Forall (λ row, length row = dim g + 1 ∧ NoDup row) (subentities g 0 (dim g)) ->
  (∀ i j, i ≠ j ->
          length (filter (λ row, i ∈ row ∧ j ∈ row) (subentities g 0 (dim g)))
          ≤ 2) ->
  (has_dirichlet (boundary_info self) = true ->
   dirichlet_clear_columns self = true) ->
  assemble self mu = Ok A ->
  ∀ i j, get A i j = get A j i.
Proof.
  intros g Hsub Hshared Hcols Hrun i j.
  destruct (decide (i = j)) as [-> | Hij]; [done |].
  unfold Cg.assemble in Hrun. fold g in Hrun.
  apply and_then_ok in Hrun as (_ & _ & Hrun).
  apply and_then_ok in Hrun as (SF_GRAD & HGRAD & Hrun).
  apply and_then_ok in Hrun as (G & HG & Hrun).
  apply and_then_ok in Hrun as (SF_INTS & HINTS & Hrun).
  apply and_then_ok in Hrun as ([[V R] C] & Hbt & Hrun).
  apply and_then_ok in Hrun as (A0 & Hcoo & Hrun).
  injection Hrun as <-.
  assert (Hk : dim g + 1 = 2 ∨ dim g + 1 = 3).
  { destruct (decide (dim g = 2)); [lia |].
    destruct (decide (dim g = 1)); [lia | done]. }
  assert (HlenG : length SF_GRAD = dim g + 1).
  { destruct (decide (dim g = 2)) as [-> |]; [by injection HGRAD as <- |].
    destruct (decide (dim g = 1)) as [-> |]; [by injection HGRAD as <- | done]. }
  clear HGRAD.
  assert (HGe : Forall (λ Ge, length Ge = dim g + 1) G).
  { unfold Cg.einsum_grads in HG. destruct (decide _); [| done].
    injection HG as <-. rewrite <- HlenG. apply einsum_grads_shape. }
  clear HG.
  assert (∃ sc G' w, Forall (λ Ge, length Ge = dim g + 1) G'
                     ∧ (match diffusion_constant self with
                        | Some c => (λ x, mul x c) <$> SF_INTS
                        | None => SF_INTS
                        end) = sc <$> einsum_ints_values G' w)
    as (sc & G' & w & HG' & Hsc).
  { assert (∃ G' w, Forall (λ Ge, length Ge = dim g + 1) G'
                    ∧ SF_INTS = einsum_ints_values G' w) as (G' & w & HG' & ->).
    { destruct (diffusion_function self) as [f |].
      - apply and_then_ok in HINTS as (mu_d & _ & HINTS).
        apply and_then_ok in HINTS as (D & _ & HINTS).
        unfold Cg.einsum_ints_weighted in HINTS.
        destruct (decide _) in HINTS; [| done]. injection HINTS as <-.
        eexists _, _. split; [| done]. by apply stretch_Forall.
      - unfold Cg.einsum_ints in HINTS.
        destruct (decide _) in HINTS; [| done]. injection HINTS as <-.
        eexists _, _. split; [| done]. by apply stretch_Forall. }
    destruct (diffusion_constant self) as [c |]; [by eexists _, _, _ |].
    exists id, G', w. by rewrite list_fmap_id. }
  clear HINTS. rewrite Hsc in Hbt.
  assert (Hrows : Forall (λ row, length row = dim g + 1) (subentities g 0 (dim g))).
  { eapply Forall_impl; [exact Hsub |]. by intros row [? _]. }
  assert (Hlen : length (repeat_ravel (subentities g 0 (dim g)) (dim g + 1))
                 = length (tile_ravel (subentities g 0 (dim g)) (dim g + 1))).
  { assert (Hsub' : Forall (λ row, length row = dim g + 1 ∧ Forall (λ _, True) row)
                      (subentities g 0 (dim g))).
    { eapply Forall_impl; [exact Hrows |]. intros row Hrow. split; [done |].
      by apply Forall_true. }
    destruct (repeat_ravel_shape _ _ _ Hsub') as [-> _].
    by destruct (tile_ravel_shape _ _ _ Hsub') as [-> _]. }
  pose proof (base_triplets_symmetric sc _ _ G' w Hk Hrows HG') as Hbase.
  pose proof (boundary_treatment_symmetric _ _ _ _ _ _ _ Hlen Hcols Hbase Hbt)
    as Hsym.
  destruct (boundary_treatment_indices _ _ _ _ _ _ _ Hbt) as (t & -> & ->).
  unfold coo_matrix in Hcoo.
  destruct (decide _) in Hcoo; [| done]. destruct (decide _) in Hcoo; [| done].
  injection Hcoo as <-.
  rewrite !get_csr_matrix. cbn [coo_entries]. f_equal.
  apply accumulate_perm.
  - rewrite (values_at_perm _ _ _ (sort_indices_perm _)).
    unfold values_at. rewrite length_fmap.
    etrans; [apply length_filter_zip |].
    rewrite zip_with_app by done.
    rewrite filter_app, length_app, filter_diagonal by done.
    cbn [length]. rewrite Nat.add_0_r.
    etrans; [by apply positions_per_element |]. by apply Hshared.
  - rewrite (values_at_perm _ _ _ (sort_indices_perm _)).
    rewrite (values_at_perm (j, i) _ _ (sort_indices_perm _)).
    rewrite <- (values_at_transposed j i).
    by apply values_at_perm.
Qed.

End cg_symmetry.

Section cg_symmetry_scenarios.
Import Numpy Py Scenario.

(** The rationals, as pairs of a numerator and a denominator, have the
    two laws up to equality of the pairs. *)
Lemma Qplus_comm_pairs (x y : Q) : (x + y)%Q = (y + x)%Q.
Proof.
  destruct x as [a b], y as [c d]. unfold Qplus. cbn [Qnum Qden].
  f_equal; [lia | apply Pos.mul_comm].
Qed.

Lemma Qmult_comm_pairs (x y : Q) : (x * y)%Q = (y * x)%Q.
Proof.
  destruct x as [a b], y as [c d]. unfold Qmult. cbn [Qnum Qden].
  f_equal; [apply Z.mul_comm | apply Pos.mul_comm].
Qed.

Lemma Qadd_comm (x y : Q) : Qadd x y = Qadd y x.
Proof. unfold Qadd. by rewrite Qplus_comm_pairs. Qed.

Lemma Qmul_comm (x y : Q) : Qmul x y = Qmul y x.
Proof. unfold Qmul. by rewrite Qmult_comm_pairs. Qed.

Lemma assemble_symmetric_witness :
  let A := {| sp_shape := (4, 4);
              sp_entries :=
                [(0, 0, 1%Q); (0, 1, 0%Q); (0, 2, (-1)%Q); (1, 0, 0%Q);
                 (1, 1, 1 # 2); (1, 2, -1 # 2); (2, 0, (-1)%Q);
                 (2, 1, -1 # 2); (2, 2, 2%Q); (0, 3, 0%Q); (2, 3, -1 # 2);
                 (3, 0, 0%Q); (3, 2, -1 # 2); (3, 3, 1 # 2)] |} in
  Cg.get 0%Q A 0 2 = Cg.get 0%Q A 2 0 ∧ Cg.get 0%Q A 1 2 = Cg.get 0%Q A 2 1.
Proof.
  intros A.
  pose proof (assemble_symmetric 0%Q 1%Q Qopp Qadd Qmul id
                Qadd_comm Qmul_comm (λ es, reflexivity es)
                laplace_triangles tt A) as Hsym.
  split; apply Hsym; try reflexivity; try done.
  - repeat constructor; by apply (bool_decide_unpack _).
  - intros i j _. etrans; [apply length_filter | done].
  - repeat constructor; by apply (bool_decide_unpack _).
  - intros i j _. etrans; [apply length_filter | done].
Defined.

End cg_symmetry_scenarios.

(** * Properties of [L2ProductFunctionalP1] and [L2ProductP1] *)

Section l2_properties.
Import Numpy Py Cg.
Context {F Mu : Type}.
Variables (zero one : F) (opp : F -> F) (add mul : F -> F -> F).
Variable sort_indices : list (nat * nat * F) -> list (nat * nat * F).
Variable quadrature : ReferenceElement -> nat -> @array F * @array F.
Variable einsum : string -> list (@array F) -> Result (@array F).
Variable values_for : @array F -> nat -> Result (list F).

Hypothesis sort_indices_perm : ∀ es, sort_indices es ≡ₚ es.

Local Abbreviation todense_row := (Cg.todense_row zero add).
Local Abbreviation functional_boundary :=
  (@Cg.functional_boundary F Mu zero values_for).
Local Abbreviation functional_assemble :=
  (@Cg.functional_assemble F Mu zero one opp add quadrature einsum values_for).
Local Abbreviation product_assemble :=
  (Cg.product_assemble zero one opp add sort_indices quadrature einsum).
Local Abbreviation Functional := (@L2ProductFunctionalP1 F Mu).

(** *** Stores into an array *)

Lemma length_todense_row n (A : coo) : length (todense_row n A) = n.
Proof.
  unfold Cg.todense_row.
  assert (Hgen : ∀ (es : list (nat * nat * F)) (acc : list F),
            length (foldl (λ acc e, alter (λ x, add x e.2) e.1.2 acc) acc es)
            = length acc).
  { induction es as [| e es IH]; intros acc; cbn [foldl]; [done |].
    by rewrite IH, length_alter. }
  by rewrite Hgen, length_replicate.
Qed.

Lemma stores_length (l : list (nat * F)) (I : list F) :
  length (foldl (λ acc dv, <[dv.1 := dv.2]> acc) I l) = length I.
Proof.
  revert I. induction l as [| dv l IH]; intros I; cbn [foldl]; [done |].
  by rewrite IH, length_insert.
Qed.

Lemma stores_elsewhere (l : list (nat * F)) (I : list F) j :
  j ∉ l.*1 ->
  foldl (λ acc dv, <[dv.1 := dv.2]> acc) I l !! j = I !! j.
Proof.
  revert I. induction l as [| [d v] l IH]; intros I Hj; cbn [foldl]; [done |].
  rewrite fmap_cons in Hj. apply not_elem_of_cons in Hj as [Hne Hj].
  rewrite IH by done. cbn [fst snd] in *. by rewrite list_lookup_insert_ne.
Qed.

Lemma stores_at (l : list (nat * F)) (I : list F) t d v :
  NoDup l.*1 -> l !! t = Some (d, v) -> d < length I ->
  foldl (λ acc dv, <[dv.1 := dv.2]> acc) I l !! d = Some v.
Proof.
  revert I t. induction l as [| [d0 v0] l IH]; intros I t Hnodup Ht Hd;
    [done |].
  rewrite fmap_cons in Hnodup. apply NoDup_cons in Hnodup as [Hfresh Hnodup].
  cbn [foldl fst snd] in *. destruct t as [| t]; cbn in Ht.
  - injection Ht as -> ->.
    rewrite stores_elsewhere by done. by apply list_lookup_insert_eq.
  - apply (IH _ t); [done | done | by rewrite length_insert].
Qed.

Lemma stores_of_zero (l : list (nat * F)) (I : list F) d :
  Forall (λ dv, dv.2 = zero) l -> d ∈ l.*1 -> d < length I ->
  foldl (λ acc dv, <[dv.1 := dv.2]> acc) I l !! d = Some zero.
Proof.
  intros Hzero. revert I. induction Hzero as [| [d0 v0] l Hv _ IH];
    intros I Hin Hd.
  - by apply elem_of_nil in Hin.
  - cbn [foldl fst snd] in *. subst v0.
    destruct (decide (d ∈ l.*1)) as [Hlater | Hlast].
    + apply IH; [done | by rewrite length_insert].
    + rewrite stores_elsewhere by done.
      rewrite fmap_cons in Hin. apply elem_of_cons in Hin as [-> | ?]; [| done].
      by apply list_lookup_insert_eq.
Qed.

Lemma setitem_ok (I : list F) DI vs I' :
  setitem I DI vs = Ok I' ->
  Forall (λ d, d < length I) DI
  ∧ I' = foldl (λ acc dv, <[dv.1 := dv.2]> acc) I (zip DI vs).
Proof.
  unfold setitem. destruct (decide _); [| done]. by intros [= <-].
Qed.

(** *** The boundary treatment of the functional *)

Lemma functional_boundary_frame_length (self : Functional) mu I I' :
  functional_boundary self mu I = Ok I' -> length I' = length I.
Proof.
  unfold Cg.functional_boundary.
  destruct (f_boundary_info self) as [bi |]; [| by intros [= <-]].
  destruct (has_dirichlet bi); [| by intros [= <-]].
  assert (Hstores : ∀ DB vs, setitem I DB vs = Ok I' -> length I' = length I).
  { intros DB vs [_ ->]%setitem_ok. apply stores_length. }
  destruct (dirichlet_data self) as [data |]; [| by apply Hstores].
  intros Hrun.
  apply and_then_ok in Hrun as (points & _ & Hrun).
  apply and_then_ok in Hrun as (mu_d & _ & Hrun).
  apply and_then_ok in Hrun as (values & _ & Hrun).
  apply and_then_ok in Hrun as (vs & _ & Hrun).
  destruct (decide _); [| done]. by eapply Hstores.
Qed.

(** X9. The boundary treatment of [L2ProductFunctionalP1.assemble] keeps
    the length of the vector and changes no entry outside the Dirichlet
    DOFs (and nothing at all without boundary information or without
    Dirichlet boundaries). *)
Theorem functional_boundary_frame (self : Functional) mu I I' :
  functional_boundary self mu I = Ok I' ->
  length I' = length I
  ∧ match f_boundary_info self with
    | Some bi =>
        if has_dirichlet bi
        then ∀ j, j ∉ dirichlet_boundaries bi (dim (base (f_grid self))) ->
                  I' !! j = I !! j
        else I' = I
    | None => I' = I
    end.
Proof.
  unfold Cg.functional_boundary.
  destruct (f_boundary_info self) as [bi |]; [| by intros [= <-]].
  destruct (has_dirichlet bi); [| by intros [= <-]].
  set (DB := dirichlet_boundaries bi (dim (base (f_grid self)))).
  assert (Hstores : ∀ vs, setitem I DB vs = Ok I' ->
            length I' = length I ∧ ∀ j, j ∉ DB -> I' !! j = I !! j).
  { intros vs [_ ->]%setitem_ok. split; [apply stores_length |].
    intros j Hj. apply stores_elsewhere. intros Hin. apply Hj.
    apply list_elem_of_fmap in Hin as ([d v] & -> & Hin).
    by apply elem_of_zip_l in Hin. }
  destruct (dirichlet_data self) as [data |]; [| by apply Hstores].
  intros Hrun.
  apply and_then_ok in Hrun as (points & _ & Hrun).
  apply and_then_ok in Hrun as (mu_d & _ & Hrun).
  apply and_then_ok in Hrun as (values & _ & Hrun).
  apply and_then_ok in Hrun as (vs & _ & Hrun).
  destruct (decide _); [| done]. by eapply Hstores.
Qed.

(** X10. Without Dirichlet data, the assembled functional has a zero at
    every Dirichlet DOF. *)
Theorem functional_dirichlet_zero (self : Functional) mu bi sh I :
  functional_assemble self mu = Ok (Dense {| shape := sh; data := Floats I |}) ->
  f_boundary_info self = Some bi ->
  has_dirichlet bi = true ->
  dirichlet_data self = None ->
  ∀ d, d ∈ dirichlet_boundaries bi (dim (base (f_grid self))) ->
       I !! d = Some zero.
Proof.
  intros Hrun Hbi Hdir Hdata d Hd. unfold Cg.functional_assemble in Hrun.
  apply and_then_ok in Hrun as (mu_f & _ & Hrun).
  apply and_then_ok in Hrun as (Fv & _ & Hrun).
  destruct (quadrature _ 2) as [q w].
  apply and_then_ok in Hrun as (SF & _ & Hrun).
  apply and_then_ok in Hrun as (ints & _ & Hrun).
  apply and_then_ok in Hrun as (A & _ & Hrun).
  apply and_then_ok in Hrun as (I1 & Hbt & Hrun).
  injection Hrun as <- <-.
  unfold Cg.functional_boundary in Hbt. rewrite Hbi, Hdir, Hdata in Hbt.
  apply setitem_ok in Hbt as [Hrange ->].
  apply stores_of_zero.
  - apply Forall_forall. intros [d' v] Hin. cbn.
    apply elem_of_zip_r in Hin. by apply elem_of_replicate_inv in Hin.
  - rewrite fst_zip; [done |]. by rewrite length_replicate.
  - by apply (proj1 (Forall_forall _ _) Hrange).
Qed.

(** X11. With Dirichlet data (and Dirichlet DOFs listed once each), the
    entry of the assembled functional at each Dirichlet DOF is the value
    that numpy takes for it from the array that [dirichlet_data] returned
    for the centers of these DOFs. *)
Theorem functional_dirichlet_data (self : Functional) mu bi data sh I :
  functional_assemble self mu = Ok (Dense {| shape := sh; data := Floats I |}) ->
  f_boundary_info self = Some bi ->
  has_dirichlet bi = true ->
  dirichlet_data self = Some data ->
  let g := base (f_grid self) in
  let DB := dirichlet_boundaries bi (dim g) in
  NoDup DB ->
  ∃ points mu_d values vs,
    mapM (λ d, centers g (dim g) !! d) DB = Some points
    ∧ f_map_parameter self mu (Some "dirichlet_data") = Ok mu_d
    ∧ data points mu_d = Ok values
    ∧ values_for values (length DB) = Ok vs
    ∧ ∀ t d, DB !! t = Some d -> I !! d = vs !! t.
Proof.
  intros Hrun Hbi Hdir Hdata g DB Hnodup. unfold Cg.functional_assemble in Hrun.
  apply and_then_ok in Hrun as (mu_f & _ & Hrun).
  apply and_then_ok in Hrun as (Fv & _ & Hrun).
  destruct (quadrature _ 2) as [q w].
  apply and_then_ok in Hrun as (SF & _ & Hrun).
  apply and_then_ok in Hrun as (ints & _ & Hrun).
  apply and_then_ok in Hrun as (A & _ & Hrun).
  apply and_then_ok in Hrun as (I1 & Hbt & Hrun).
  injection Hrun as <- <-.
  unfold Cg.functional_boundary in Hbt. rewrite Hbi, Hdir, Hdata in Hbt.
  fold g DB in Hbt.
  apply and_then_ok in Hbt as (points & Hpoints & Hbt).
  apply and_then_ok in Hbt as (mu_d & Hmu & Hbt).
  apply and_then_ok in Hbt as (values & Hvalues & Hbt).
  apply and_then_ok in Hbt as (vs & Hvs & Hbt).
  destruct (decide (length vs = length DB)) as [Hlen |]; [| done].
  apply setitem_ok in Hbt as [Hrange ->].
  exists points, mu_d, values, vs. split_and!; try done.
  { destruct (mapM _ DB); [| done]. by injection Hpoints as ->. }
  intros t d Ht.
  destruct (lookup_lt_is_Some_2 vs t) as [v Hv].
  { rewrite Hlen. by eapply lookup_lt_Some. }
  rewrite Hv. apply (stores_at _ _ t).
  - rewrite fst_zip; [done | lia].
  - apply lookup_zip_with_Some. by exists d, v.
  - by apply (proj1 (Forall_forall _ _) Hrange), list_elem_of_lookup_2 with t.
Qed.

(** X12. What [L2ProductFunctionalP1.assemble] returns is a dense row
    vector of shape [(1, n)], where [n] is the [dim_source] that [__init__]
    declares ([grid.size(grid.dim)]) and [dim_range] is 1; [solve] turns it
    into the one-dimensional vector of shape [(n,)] with the same entries. *)
Theorem functional_assemble_shape (self : Functional) mu M :
  functional_assemble self mu = Ok M ->
  let n := functional_dim_source self in
  ∃ I, M = Dense {| shape := [functional_dim_range self; n]; data := Floats I |}
       ∧ length I = n
       ∧ Linear.rhs_vector M = {| shape := [n]; data := Floats I |}.
Proof.
  intros Hrun n. unfold Cg.functional_assemble in Hrun.
  apply and_then_ok in Hrun as (mu_f & _ & Hrun).
  apply and_then_ok in Hrun as (Fv & _ & Hrun).
  destruct (quadrature _ 2) as [q w].
  apply and_then_ok in Hrun as (SF & _ & Hrun).
  apply and_then_ok in Hrun as (ints & _ & Hrun).
  apply and_then_ok in Hrun as (A & _ & Hrun).
  apply and_then_ok in Hrun as (I & Hbt & Hrun).
  injection Hrun as <-.
  apply functional_boundary_frame_length in Hbt.
  rewrite length_todense_row in Hbt. fold (functional_dim_source self) in Hbt.
  fold n in Hbt. exists I. rewrite Hbt.
  split_and!; [done | done | apply rhs_vector_row].
Qed.

(** The conversion of checked triplets to CSR. *)
Lemma csr_matrix_well_formed (V : list F) (R C : list nat) shape (A0 : coo) :
  coo_matrix V R C shape = Ok A0 ->
  let A := Cg.csr_matrix add sort_indices A0 in
  sp_shape A = shape
  ∧ Forall (λ e, e.1.1 < shape.1 ∧ e.1.2 < shape.2) (sp_entries A)
  ∧ NoDup (sp_entries A).*1.
Proof.
  unfold coo_matrix.
  destruct (decide _) as [[HlenR HlenC] |]; [| done].
  destruct (decide _) as [[HR HC] |]; [| done].
  intros [= <-].
  cbn [Cg.csr_matrix sp_shape sp_entries coo_shape coo_entries].
  destruct (sum_duplicates_positions add (sort_indices (zip (zip R C) V)) [])
    as [Hnodup Hsub]; [constructor |].
  split_and!; [done | | done].
  apply Forall_forall. intros e He.
  destruct (Hsub e.1) as [Hin | Hin].
  { apply list_elem_of_fmap. by exists e. }
  { by apply elem_of_nil in Hin. }
  rewrite sort_indices_perm in Hin.
  apply list_elem_of_fmap in Hin as ([[i j] v] & -> & Hin). cbn [fst snd].
  apply elem_of_zip_l in Hin.
  split.
  - apply elem_of_zip_l in Hin. by eapply (proj1 (Forall_forall _ _) HR).
  - apply elem_of_zip_r in Hin. by eapply (proj1 (Forall_forall _ _) HC).
Qed.

(** X13. [L2ProductP1.assemble] returns a matrix only for grids of
    dimension 1 or 2 (it raises [NotImplementedError] otherwise); the
    matrix is square of size [dim_source = grid.size(grid.dim)], all stored
    entries lie inside it and no position is stored twice. *)
Theorem product_result_well_formed (self : L2ProductP1) :
  let g := base (p_grid self) in
  let n := product_dim_source self in
  (dim g ≠ 1 -> dim g ≠ 2 -> product_assemble self = Raise NotImplementedError)
  ∧ ∀ A, product_assemble self = Ok A ->
         (dim g = 1 ∨ dim g = 2)
         ∧ sp_shape A = (n, n)
         ∧ Forall (λ e, e.1.1 < n ∧ e.1.2 < n) (sp_entries A)
         ∧ NoDup (sp_entries A).*1.
Proof.
  intros g n. unfold Cg.product_assemble. fold g. split.
  - intros H1 H2. rewrite decide_False; [done |]. by intros [? | ?].
  - intros A Hrun.
    destruct (decide (dim g = 2 ∨ dim g = 1)) as [Hdim |]; [| done].
    destruct (quadrature triangle 2) as [q w].
    apply and_then_ok in Hrun as (SFQ & _ & Hrun).
    apply and_then_ok in Hrun as (ints & _ & Hrun).
    apply and_then_ok in Hrun as (A0 & Hcoo & Hrun).
    injection Hrun as <-.
    split; [by destruct Hdim; [right | left] |].
    by apply csr_matrix_well_formed in Hcoo.
Qed.

End l2_properties.

Section l2_scenarios.
Import Numpy Py Scenario.

Lemma functional_boundary_frame_witness :
  let I := [1 # 4; 1 # 2; 1 # 4] in
  let I' := [0%Q; 1 # 2; 0%Q] in
  length I' = length I ∧ ∀ j, j ∉ [0; 2] -> I' !! j = I !! j.
Proof.
  intros I I'.
  apply (functional_boundary_frame 0%Q values_for_exact (load None) tt I I').
  reflexivity.
Defined.

Lemma functional_dirichlet_zero_witness :
  [0%Q; 1 # 2; 0%Q] !! 0 = Some 0%Q ∧ [0%Q; 1 # 2; 0%Q] !! 2 = Some 0%Q.
Proof.
  pose proof (functional_dirichlet_zero 0%Q 1%Q Qopp Qadd
                quadrature_exact einsum_exact values_for_exact
                (load None) tt end_points [1; 3] [0%Q; 1 # 2; 0%Q]
                eq_refl eq_refl eq_refl eq_refl) as Hzero.
  split; apply Hzero; cbn; repeat constructor.
Defined.

Lemma functional_dirichlet_data_witness :
  ∃ points mu_d values vs,
    mapM (λ d, [[0]; [1 # 2]; [1]]%Q !! d) [0; 2] = Some points
    ∧ Ok tt = Ok mu_d
    ∧ boundary_values points mu_d = Ok values
    ∧ values_for_exact values 2 = Ok vs
    ∧ ∀ t d, [0; 2] !! t = Some d -> [5%Q; 1 # 2; 7%Q] !! d = vs !! t.
Proof.
  apply (functional_dirichlet_data 0%Q 1%Q Qopp Qadd
           quadrature_exact einsum_exact values_for_exact
           (load (Some boundary_values)) tt end_points boundary_values
           [1; 3] [5%Q; 1 # 2; 7%Q]).
  - reflexivity.
  - reflexivity.
  - reflexivity.
  - reflexivity.
  - cbn. by apply (bool_decide_unpack _).
Defined.

Lemma functional_assemble_shape_witness :
  ∃ I, Dense {| shape := [1; 3]; data := Floats [0%Q; 1 # 2; 0%Q] |}
       = Dense {| shape := [1; 3]; data := Floats I |}
       ∧ length I = 3
       ∧ Linear.rhs_vector
           (Dense {| shape := [1; 3]; data := Floats [0%Q; 1 # 2; 0%Q] |})
         = {| shape := [3]; data := Floats I |}.
Proof.
  apply (functional_assemble_shape 0%Q 1%Q Qopp Qadd
           quadrature_exact einsum_exact values_for_exact (load None) tt).
  reflexivity.
Defined.

Lemma product_result_well_formed_witness :
  let A := {| sp_shape := (3, 3);
              sp_entries := [(0, 0, 1 # 8); (0, 1, 1 # 24); (1, 0, 1 # 24);
                             (1, 1, 1 # 6); (1, 2, 1 # 24); (2, 1, 1 # 24);
                             (2, 2, 1 # 24)] |} in
  (1 = 1 ∨ 1 = 2)
  ∧ sp_shape A = (3, 3)
  ∧ Forall (λ e, e.1.1 < 3 ∧ e.1.2 < 3) (sp_entries A)
  ∧ NoDup (sp_entries A).*1.
Proof.
  intros A.
  apply (proj2 (product_result_well_formed 0%Q 1%Q Qopp Qadd id
                  quadrature_exact einsum_exact (λ es, reflexivity es)
                  {| Cg.p_grid := interval_quadrature_grid |}) A).
  reflexivity.
Defined.

End l2_scenarios.
